(** * go-sse: a shallow embedding of [pkg/stream.go]

    The Server-Sent Events user agent of package [sse]: line framing
    ([splitLines]), line interpretation ([interpret]), field processing
    ([process]), event dispatch ([dispatch]) and the session driver
    ([parse], [New]).

    Go's [[]byte] and [string] are [list byte]; a [*bytes.Buffer] is the
    list of bytes it holds; the event channel is the queue of events sent
    on it together with its closed flag; a run-time panic is the [Panic]
    case of [result]. *)

From Stdlib Require Import Strings.Byte Strings.String Strings.Ascii.
From Stdlib Require Import List Bool Arith ZArith NArith Lia.
From Stdlib Require Import Numbers.DecimalString.
Import ListNotations.

(** ** Bytes *)

Definition bytes (s : string) : list byte := list_byte_of_string s.

Definition LF : byte := x0a.
Definition CR : byte := x0d.
Definition COLON : byte := x3a.
Definition SPACE : byte := x20.

(** [bytes.Equal] *)
Fixpoint bytes_Equal (a b : list byte) : bool :=
  match a, b with
  | [], [] => true
  | x :: a', y :: b' => Byte.eqb x y && bytes_Equal a' b'
  | _, _ => false
  end.

(** [bytes.IndexByte]: index of the first occurrence of [c], if any. *)
Fixpoint IndexByte (s : list byte) (c : byte) : option nat :=
  match s with
  | [] => None
  | x :: s' =>
      if Byte.eqb x c then Some 0
      else match IndexByte s' c with
           | Some i => Some (S i)
           | None => None
           end
  end.

(** [bytes.SplitN] for a one-byte separator and a count [n >= 0]: at most
    [n] subslices, the last one being the unsplit remainder. *)
Fixpoint SplitN (s : list byte) (sep : byte) (n : nat) : list (list byte) :=
  match n with
  | 0 => []
  | 1 => [s]
  | S n' =>
      match IndexByte s sep with
      | None => [s]
      | Some m => firstn m s :: SplitN (skipn (m + 1) s) sep n'
      end
  end.

(** ** Run-time panics and errors *)

Inductive runtime_panic : Type :=
| IndexOutOfRange (index len : nat)
| SendOnClosedChannel.

Inductive result (A : Type) : Type :=
| Ok (a : A)
| Panic (p : runtime_panic).

Arguments Ok {A} a.
Arguments Panic {A} p.

Definition bind {A B : Type} (r : result A) (k : A -> result B) : result B :=
  match r with
  | Ok a => k a
  | Panic p => Panic p
  end.

(** Values of Go's [error] that a session can end with. *)
Inductive error : Type :=
| io_EOF
| ErrInvalidUTF8
| ErrTooLong
| ReadError (description : string)
| ConnectError (description : string).

(** ** [strconv.Atoi] *)

Inductive NumError : Type := ErrSyntax | ErrRange.

(** The size of Go's [int] in bits ([strconv.IntSize]) on 64-bit targets. *)
Definition intSize : Z := 64.

Definition is_digit (c : byte) : bool :=
  (48 <=? Byte.to_N c)%N && (Byte.to_N c <=? 57)%N.

(** The digit loop [n = n*10 + (ch - '0')]; [None] is a syntax error. *)
Fixpoint digits (n : Z) (s : list byte) : option Z :=
  match s with
  | [] => Some n
  | ch :: s' =>
      if is_digit ch
      then digits (n * 10 + (Z.of_N (Byte.to_N ch) - 48)) s'
      else None
  end.

(** [strconv.ParseUint(s, 10, bitSize)] *)
Definition ParseUint (s : list byte) (bitSize : Z) : Z * option NumError :=
  match s with
  | [] => (0, Some ErrSyntax)
  | _ =>
      match digits 0 s with
      | None => (0, Some ErrSyntax)
      | Some n =>
          let maxVal := 2 ^ bitSize - 1 in
          if maxVal <? n then (maxVal, Some ErrRange) else (n, None)
      end
  end%Z.

(** [strconv.ParseInt(s, 10, bitSize)] *)
Definition ParseInt (s : list byte) (bitSize : Z) : Z * option NumError :=
  match s with
  | [] => (0, Some ErrSyntax)
  | c :: s' =>
      let neg := Byte.eqb c x2d in
      let s1 := if Byte.eqb c x2b || Byte.eqb c x2d then s' else s in
      let '(un, err) := ParseUint s1 bitSize in
      match err with
      | Some ErrSyntax => (0, Some ErrSyntax)
      | _ =>
          let cutoff := 2 ^ (bitSize - 1) in
          if negb neg && (cutoff <=? un) then (cutoff - 1, Some ErrRange)
          else if neg && (cutoff <? un) then (- cutoff, Some ErrRange)
          else (if neg then - un else un, None)
      end
  end%Z.

(** [strconv.Atoi]: the fast path for short strings, [ParseInt] otherwise. *)
Definition Atoi (s : list byte) : Z * option NumError :=
  let sLen := Z.of_nat (length s) in
  if ((0 <? sLen) && (sLen <? 19))%Z then
    match s with
    | [] => (0%Z, Some ErrSyntax)
    | c :: s' =>
        let signed := Byte.eqb c x2d || Byte.eqb c x2b in
        let s1 := if signed then s' else s in
        if signed && (length s1 <? 1) then (0%Z, Some ErrSyntax)
        else
          match digits 0 s1 with
          | None => (0%Z, Some ErrSyntax)
          | Some n => (if Byte.eqb c x2d then (- n)%Z else n, None)
          end
    end
  else ParseInt s intSize.

(** ** Data model *)

Definition utf8BOM : list byte := [xfe; xff].
Definition eventType : list byte := bytes "event".
Definition dataType : list byte := bytes "data".
Definition idType : list byte := bytes "id".
Definition retryType : list byte := bytes "retry".

(** [Event]: the fields [Type] and [Data]. *)
Record Event : Type := mkEvent {
  Type_ : list byte;
  Data : list byte
}.

(** A [chan Event]: the events sent so far, in order, and whether it was
    closed. The receiving side is not part of the model: the queue is what
    a consumer that keeps receiving gets. Sending on a closed channel
    panics. *)
Record Chan : Type := mkChan {
  queue : list Event;
  closed : bool
}.

Definition send (c : Chan) (e : Event) : result Chan :=
  if closed c then Panic SendOnClosedChannel
  else Ok {| queue := queue c ++ [e]; closed := false |}.

Definition close (c : Chan) : Chan :=
  {| queue := queue c; closed := true |}.

(** [Stream]. The three buffers and the channel are references, shared by
    every copy of the struct; [reconnectionTime] is a plain field. The
    buffer of the [eventType] field is [eventTypeBuf] here, the package
    variable keeps the name [eventType]. *)
Record Stream : Type := mkStream {
  resource : string;
  events : Chan;
  reconnectionTime : Z;
  data : list byte;
  eventTypeBuf : list byte;
  lastEventID : list byte
}.

Definition set_events (c : Chan) (s : Stream) : Stream :=
  mkStream (resource s) c (reconnectionTime s) (data s) (eventTypeBuf s) (lastEventID s).
Definition set_reconnectionTime (n : Z) (s : Stream) : Stream :=
  mkStream (resource s) (events s) n (data s) (eventTypeBuf s) (lastEventID s).
Definition set_data (d : list byte) (s : Stream) : Stream :=
  mkStream (resource s) (events s) (reconnectionTime s) d (eventTypeBuf s) (lastEventID s).
Definition set_eventTypeBuf (t : list byte) (s : Stream) : Stream :=
  mkStream (resource s) (events s) (reconnectionTime s) (data s) t (lastEventID s).
Definition set_lastEventID (i : list byte) (s : Stream) : Stream :=
  mkStream (resource s) (events s) (reconnectionTime s) (data s) (eventTypeBuf s) i.

(** ** [splitLines] *)

(** The loop [for i, b := range data]: [rest] is [data[i:]]. *)
Fixpoint splitLines_from (data : list byte) (i : nat) (rest : list byte)
  : nat * option (list byte) :=
  match rest with
  | [] => (0, None)
  | b :: rest' =>
      if Byte.eqb b CR then
        match rest' with
        | [] => (0, None)
        | b1 :: _ =>
            if Byte.eqb b1 LF then (i + 2, Some (firstn (i + 1) data))
            else (i + 1, Some (firstn i data))
        end
      else if Byte.eqb b LF then (i + 1, Some (firstn i data))
      else splitLines_from data (S i) rest'
  end.

(** [splitLines(data, atEOF)]: the advance and the token ([None] is the
    nil token); its error result is always nil. *)
Definition splitLines (data : list byte) (atEOF : bool) : nat * option (list byte) :=
  splitLines_from data 0 data.

(** ** [process] *)

Definition process (name value : list byte) (s : Stream) : Stream :=
  if bytes_Equal eventType name then
    set_eventTypeBuf ([] ++ value) s
  else if bytes_Equal dataType name then
    set_data ((data s ++ value) ++ [LF]) s
  else if bytes_Equal idType name then
    set_lastEventID ([] ++ value) s
  else if bytes_Equal retryType name then
    let '(reconnectionTime, err) := Atoi value in
    match err with
    | None => if (0 <=? reconnectionTime)%Z
              then set_reconnectionTime reconnectionTime s
              else s
    | Some _ => s
    end
  else s.

(** ** [dispatch] *)

Definition dispatch (s : Stream) : result Stream :=
  if length (data s) =? 0 then
    Ok (set_eventTypeBuf [] (set_data [] s))
  else
    let data0 := data s in
    let data1 :=
      if Byte.eqb (nth (length data0 - 1) data0 x00) LF
      then firstn (length data0 - 1) data0
      else data0 in
    let event := {| Type_ := bytes "message"; Data := data1 |} in
    let event :=
      if negb (length (eventTypeBuf s) =? 0)
      then {| Type_ := eventTypeBuf s; Data := Data event |}
      else event in
    let s1 := set_eventTypeBuf [] (set_data [] s) in
    bind (send (events s1) event) (fun c => Ok (set_events c s1)).

(** ** [interpret] *)

Definition interpret (line : list byte) (s : Stream) : result Stream :=
  match line with
  | [] => dispatch s
  | c :: _ =>
      if Byte.eqb c COLON then Ok s
      else
        match SplitN line COLON 2 with
        | [field; value] =>
            match value with
            | [] => Panic (IndexOutOfRange 0 0)
            | v0 :: value' =>
                if Byte.eqb v0 SPACE
                then Ok (process field value' s)
                else Ok (process field value s)
            end
        | _ => Ok (process line [] s)
        end
  end.

(** ** The input side: reader, byte-order mark, UTF-8 validation *)

(** An [io.ReadCloser]: it yields [content] and then fails, with [io.EOF]
    when [failure] is [None] and with that error otherwise. *)
Record Reader : Type := mkReader {
  content : list byte;
  failure : option error
}.

Definition read_error (r : Reader) : error :=
  match failure r with
  | Some e => e
  | None => io_EOF
  end.

(** [bufio.Reader.Peek(n)]: the next [n] bytes without consuming them;
    fewer than [n] come with the error that made the read short. *)
Definition Peek (r : Reader) (n : nat) : list byte * option error :=
  if length (content r) <? n
  then (content r, Some (read_error r))
  else (firstn n (content r), None).

(** [bufio.Reader.Discard(n)]: skips the next [n] bytes. *)
Definition Discard (r : Reader) (n : nat) : Reader * option error :=
  if length (content r) <? n
  then (mkReader [] (failure r), Some (read_error r))
  else (mkReader (skipn n (content r)) (failure r), None).

Definition byte_in (lo hi : N) (b : byte) : bool :=
  (lo <=? Byte.to_N b)%N && (Byte.to_N b <=? hi)%N.

(** [utf8.RuneSelf]: bytes below it are single-byte runes. *)
Definition below_RuneSelf (b : byte) : bool := (Byte.to_N b <? 128)%N.

(** Continuation bytes, [locb .. hicb]. *)
Definition is_cont (b : byte) : bool := byte_in 128 191 b.

(** The tables [first] and [acceptRanges] of [unicode/utf8]: the length of
    the sequence a leading byte starts and the range its second byte must
    lie in; [None] for a byte that starts no sequence. *)
Definition first (p0 : byte) : option (nat * (N * N)) :=
  if below_RuneSelf p0 then Some (1, (0%N, 0%N))
  else if byte_in 194 223 p0 then Some (2, (128%N, 191%N))
  else if byte_in 224 224 p0 then Some (3, (160%N, 191%N))
  else if byte_in 225 236 p0 then Some (3, (128%N, 191%N))
  else if byte_in 237 237 p0 then Some (3, (128%N, 159%N))
  else if byte_in 238 239 p0 then Some (3, (128%N, 191%N))
  else if byte_in 240 240 p0 then Some (4, (144%N, 191%N))
  else if byte_in 241 243 p0 then Some (4, (128%N, 191%N))
  else if byte_in 244 244 p0 then Some (4, (128%N, 143%N))
  else None.

(** The size result of [utf8.DecodeRune]: [1] also for an invalid or a
    truncated sequence. *)
Definition DecodeRune_size (p : list byte) : nat :=
  match p with
  | [] => 0
  | p0 :: t =>
      match first p0 with
      | None => 1
      | Some (sz, (lo, hi)) =>
          if sz <=? 1 then 1
          else if length p <? sz then 1
          else
            match t with
            | [] => 1
            | b1 :: t1 =>
                if negb (byte_in lo hi b1) then 1
                else if sz <=? 2 then 2
                else
                  match t1 with
                  | [] => 1
                  | b2 :: t2 =>
                      if negb (is_cont b2) then 1
                      else if sz <=? 3 then 3
                      else
                        match t2 with
                        | [] => 1
                        | b3 :: _ => if negb (is_cont b3) then 1 else 4
                        end
                  end
            end
      end
  end.

(** [utf8.FullRune]: whether [p] begins with a full encoding of a rune; an
    invalid encoding counts as a full rune of width 1. *)
Definition FullRune (p : list byte) : bool :=
  match p with
  | [] => false
  | p0 :: t =>
      match first p0 with
      | None => true
      | Some (sz, (lo, hi)) =>
          if sz <=? length p then true
          else
            match t with
            | [] => false
            | b1 :: t1 =>
                if negb (byte_in lo hi b1) then true
                else
                  match t1 with
                  | [] => false
                  | b2 :: _ => negb (is_cont b2)
                  end
            end
      end
  end.

(** What a [transform.Reader] over [encoding.UTF8Validator] delivers from
    the bytes [src] of a source that then fails with [fail]: the longest
    prefix of whole, valid runes and the error that ends it. An invalid
    sequence ends it with [ErrInvalidUTF8]; a sequence cut short by the end
    of the source ends it with the source's own error, or with
    [ErrInvalidUTF8] when the source ended cleanly. *)
Fixpoint validate (src : list byte) (fail : option error) : list byte * option error :=
  match src with
  | [] => ([], fail)
  | c :: t =>
      if below_RuneSelf c then
        let '(out, e) := validate t fail in (c :: out, e)
      else
        match DecodeRune_size src, t with
        | 2, b1 :: t1 =>
            let '(out, e) := validate t1 fail in (c :: b1 :: out, e)
        | 3, b1 :: b2 :: t2 =>
            let '(out, e) := validate t2 fail in (c :: b1 :: b2 :: out, e)
        | 4, b1 :: b2 :: b3 :: t3 =>
            let '(out, e) := validate t3 fail in (c :: b1 :: b2 :: b3 :: out, e)
        | _, _ =>
            if FullRune src then ([], Some ErrInvalidUTF8)
            else match fail with
                 | Some e => ([], Some e)
                 | None => ([], Some ErrInvalidUTF8)
                 end
        end
  end.

(** [transform.NewReader(r, encoding.UTF8Validator)] *)
Definition UTF8Validator (r : Reader) : Reader :=
  let '(out, e) := validate (content r) (failure r) in mkReader out e.

(** ** [bufio.Scanner] with [splitLines] *)

(** [bufio.MaxScanTokenSize]: the scanner's buffer never holds more. *)
Definition MaxScanTokenSize : nat := N.to_nat 65536.

(** The loop of [Scanner.Scan] over the rest [buf] of the input: the split
    function sees at most a full buffer; a token advances the input; no
    token in a full buffer is [ErrTooLong]; no token in the rest of the
    input ends the scan with the reader's error ([None] for [io.EOF]).
    [splitLines] does not look at [atEOF], which is [false] here. *)
Fixpoint scan (fuel : nat) (buf : list byte) (rerr : option error)
  : list (list byte) * option error :=
  match fuel with
  | 0 => ([], rerr)
  | S fuel' =>
      match splitLines (firstn MaxScanTokenSize buf) false with
      | (advance, Some token) =>
          let '(tokens, e) := scan fuel' (skipn advance buf) rerr in
          (token :: tokens, e)
      | (_, None) =>
          if MaxScanTokenSize <=? length buf
          then ([], Some ErrTooLong)
          else ([], rerr)
      end
  end.

(** All the tokens of a reader and [Scanner.Err()]; every token consumes
    at least one byte, so the fuel is never used up. *)
Definition Scan (r : Reader) : list (list byte) * option error :=
  scan (S (length (content r))) (content r) (failure r).

(** ** [parse] and [New] *)

(** The loop [for scanner.Scan() { s.interpret(scanner.Bytes()) }]: the
    state reached, and the panic that stopped it, if any. *)
Fixpoint interpret_all (lines : list (list byte)) (s : Stream)
  : Stream * option runtime_panic :=
  match lines with
  | [] => (s, None)
  | line :: lines' =>
      match interpret line s with
      | Ok s' => interpret_all lines' s'
      | Panic p => (s, Some p)
      end
  end.

(** How a call of [parse] ends: the state it leaves behind, and either the
    error it returns or the panic it raises. *)
Record Outcome : Type := mkOutcome {
  final : Stream;
  returned : result (option error)
}.

(** The deferred [close(s.events)], run on every way out of [parse]. *)
Definition exit (s : Stream) (r : result (option error)) : Outcome :=
  mkOutcome (set_events (close (events s)) s) r.

(** The part of [parse] after the byte-order mark was dealt with. *)
Definition parse_lines (s : Stream) (buffered : Reader) : Outcome :=
  let r := UTF8Validator buffered in
  let '(lines, err) := Scan r in
  match interpret_all lines s with
  | (s', Some p) => exit s' (Panic p)
  | (s', None) => exit s' (Ok err)
  end.

Definition parse (s : Stream) (reader : Reader) : Outcome :=
  let '(bom, err) := Peek reader (length utf8BOM) in
  match err with
  | Some e => exit s (Ok (Some e))
  | None =>
      if bytes_Equal utf8BOM bom then
        let '(buffered, err) := Discard reader (length utf8BOM) in
        match err with
        | Some e => exit s (Ok (Some e))
        | None => parse_lines s buffered
        end
      else parse_lines s reader
  end.

(** The [Stream] literal of [New]. *)
Definition new_Stream (resource : string) : Stream :=
  mkStream resource (mkChan [] false) 0 [] [] [].

(** [New], given what [s.connect()] returned. [go s.parse(r)] runs on the
    variable [s]; the result of [parse] goes nowhere. The [Stream] handed
    to the caller is a copy: it shares the channel and the buffers, which
    are shown here as [parse] leaves them when the events are received as
    they come, and has its own [reconnectionTime]. A panic of the goroutine
    ends the program. *)
Definition New (resource : string) (connected : Reader + error)
  : result (Stream * option error) :=
  let s := new_Stream resource in
  match connected with
  | inr err => Ok (s, Some err)
  | inl r =>
      let o := parse s r in
      match returned o with
      | Panic p => Panic p
      | Ok _ => Ok (set_reconnectionTime (reconnectionTime s) (final o), None)
      end
  end.

(** [Stream.Events] *)
Definition Events (s : Stream) : Chan := events s.

(** A source that ends cleanly after [input]. *)
Definition from_bytes (input : list byte) : Reader := mkReader input None.

(** The stream of the test suite: no resource, empty buffers. *)
Definition test_Stream : Stream := new_Stream EmptyString.

(** ** Spec-side notions the claims are stated with *)

(** The values joined by single LF characters, in order. *)
Fixpoint join_LF (vs : list (list byte)) : list byte :=
  match vs with
  | [] => []
  | [v] => v
  | v :: vs' => v ++ LF :: join_LF vs'
  end.

(** A sequence of field lines, as (name, value) pairs, processed in order. *)
Definition process_all (fields : list (list byte * list byte)) (s : Stream) : Stream :=
  fold_left (fun st f => process (fst f) (snd f) st) fields s.

(** The values of the [data] fields among them. *)
Definition data_values (fields : list (list byte * list byte)) : list (list byte) :=
  map snd (filter (fun f => bytes_Equal dataType (fst f)) fields).

Definition ends_with_LF (d : list byte) : Prop := exists d', d = d' ++ [LF].

(** A buffer of bytes free of line terminators. *)
Definition no_terminator (l : list byte) : Prop :=
  forall b, In b l -> b <> CR /\ b <> LF.

(** The integers a [retry] value may denote, in the words of the claim:
    base ten, an optional leading sign, at least one digit, within the
    range of [int]. *)
Definition spec_base10_value (ds : list byte) : Z :=
  fold_left (fun n d => (n * 10 + (Z.of_N (Byte.to_N d) - 48))%Z) ds 0%Z.

Definition spec_fits_int (n : Z) : Prop := (- 2 ^ 63 <= n < 2 ^ 63)%Z.

Inductive spec_signed_base10 : list byte -> Z -> Prop :=
| base10_unsigned (ds : list byte) :
    ds <> [] -> forallb is_digit ds = true ->
    spec_fits_int (spec_base10_value ds) ->
    spec_signed_base10 ds (spec_base10_value ds)
| base10_plus (ds : list byte) :
    ds <> [] -> forallb is_digit ds = true ->
    spec_fits_int (spec_base10_value ds) ->
    spec_signed_base10 (x2b :: ds) (spec_base10_value ds)
| base10_minus (ds : list byte) :
    ds <> [] -> forallb is_digit ds = true ->
    spec_fits_int (- spec_base10_value ds) ->
    spec_signed_base10 (x2d :: ds) (- spec_base10_value ds).

(** ** Auxiliary notions and the inputs of the examples *)

(** The type of the event a dispatch builds. *)
Definition event_type (s : Stream) : list byte :=
  if length (eventTypeBuf s) =? 0 then bytes "message" else eventTypeBuf s.

(** A stream whose last event ID was set to "7" and that holds data. *)
Definition stream_with_id : Stream :=
  mkStream EmptyString (mkChan [] false) 0 (bytes "x" ++ [LF]) [] (bytes "7").

(** The stock-quote example of the test suite. *)
Definition stock_quote_input : list byte :=
  bytes "data: YHOO" ++ [LF] ++ bytes "data: +2" ++ [LF] ++ bytes "data: 10" ++ [LF; LF].

(** [Atoi] without its two paths: sign, digits, range. *)
Definition Atoi_normal (s : list byte) : Z * option NumError :=
  match s with
  | [] => (0, Some ErrSyntax)
  | c :: s' =>
      let ds := if Byte.eqb c x2b || Byte.eqb c x2d then s' else s in
      match ds with
      | [] => (0, Some ErrSyntax)
      | _ =>
          match digits 0 ds with
          | None => (0, Some ErrSyntax)
          | Some n =>
              if Byte.eqb c x2d
              then if 2 ^ 63 <? n then (- 2 ^ 63, Some ErrRange) else (- n, None)
              else if 2 ^ 63 <=? n then (2 ^ 63 - 1, Some ErrRange) else (n, None)
          end
      end
  end%Z.

(** The five shapes of a buffer, by its first terminator. *)
Inductive framing : list byte -> Prop :=
| no_line (line : list byte) :
    no_terminator line -> framing line
| pending_CR (line : list byte) :
    no_terminator line -> framing (line ++ [CR])
| line_LF (line rest : list byte) :
    no_terminator line -> framing (line ++ LF :: rest)
| line_CRLF (line rest : list byte) :
    no_terminator line -> framing (line ++ CR :: LF :: rest)
| line_CR (line rest : list byte) (c : byte) :
    no_terminator line -> c <> LF -> framing (line ++ CR :: c :: rest).

(** A session over CRLF-terminated lines. *)
Definition crlf_input : list byte :=
  bytes "data: x" ++ [CR; LF] ++ [CR; LF].

(** The "empty data" example of the test suite, without the blank line
    it starts with there. *)
Definition empty_data_input : list byte :=
  bytes "data" ++ [LF; LF] ++ bytes "data" ++ [LF] ++ bytes "data" ++ [LF; LF]
  ++ bytes "data:".

(** The states a session passes through: the stream [New] builds, and
    every state reached from one of them by interpreting a line. *)
Inductive reachable : Stream -> Prop :=
| reach_new (resource : string) : reachable (new_Stream resource)
| reach_step (s s' : Stream) (line : list byte) :
    reachable s -> interpret line s = Ok s' -> reachable s'.

(** The event [e] was sent by a dispatch that removed one LF from the data
    buffer of a state of a session. *)
Definition emitted_by_dispatch (e : Event) : Prop :=
  exists s s',
    reachable s /\ dispatch s = Ok s' /\
    queue (events s') = queue (events s) ++ [e] /\
    data s = Data e ++ [LF].

(** The data buffer holds whole [data] values, each closed by LF, and the
    channel is open while the session runs. *)
Definition session_inv (s : Stream) : Prop :=
  (data s = [] \/ ends_with_LF (data s)) /\ closed (events s) = false.

(** Two [data] lines without a value, then a blank line. *)
Definition empty_values_input : list byte :=
  bytes "data" ++ [LF] ++ bytes "data" ++ [LF; LF].

(** [validate], one rune at a time. *)
Inductive validate_step (src : list byte) (fail : option error) : Prop :=
| step_end :
    src = [] -> validate src fail = ([], fail) -> validate_step src fail
| step_rune (rune rest : list byte) :
    src = rune ++ rest -> rune <> [] ->
    (forall b, In b rune -> (Byte.to_N b <= 244)%N) ->
    validate src fail =
    (rune ++ fst (validate rest fail), snd (validate rest fail)) ->
    validate_step src fail
| step_error (e : error) :
    src <> [] -> validate src fail = ([], Some e) -> validate_step src fail.

(** One event, then a clean end; the same with an invalid byte after it;
    the same with a source that fails after it. *)
Definition clean_source : Reader :=
  from_bytes (bytes "data: x" ++ [LF; LF]).
Definition invalid_source : Reader :=
  from_bytes (bytes "data: x" ++ [LF; LF] ++ [x80]).
Definition failing_source : Reader :=
  mkReader (bytes "data: x" ++ [LF; LF]) (Some (ReadError "connection reset")).

(** The byte-order mark example of the test suite. *)
Definition bom_input : list byte :=
  utf8BOM ++ bytes "data: foo" ++ [LF; LF].

(** The same example behind the three bytes that encode U+FEFF in UTF-8. *)
Definition encoded_mark_input : list byte :=
  [xef; xbb; xbf] ++ bytes "data: foo" ++ [LF; LF].

(** ** [connect] and the HTTP request it sends *)

(** [http.Header]: a map from canonical keys to their values, kept as an
    association list. *)
Definition Header : Type := list (string * list (list byte)).

Definition is_token_char (c : ascii) : bool :=
  let n := nat_of_ascii c in
  ((48 <=? n) && (n <=? 57)) || ((65 <=? n) && (n <=? 90)) ||
  ((97 <=? n) && (n <=? 122)) ||
  existsb (Nat.eqb n) [33; 35; 36; 37; 38; 39; 42; 43; 45; 46; 94; 95; 96; 124; 126].

Definition to_upper (c : ascii) : ascii :=
  let n := nat_of_ascii c in
  if (97 <=? n) && (n <=? 122) then ascii_of_nat (n - 32) else c.

Definition to_lower (c : ascii) : ascii :=
  let n := nat_of_ascii c in
  if (65 <=? n) && (n <=? 90) then ascii_of_nat (n + 32) else c.

(** The second loop of [textproto.CanonicalMIMEHeaderKey]: the first
    letter and every letter after a hyphen in upper case, the others in
    lower case. *)
Fixpoint canonical_from (upper : bool) (s : string) : string :=
  match s with
  | EmptyString => EmptyString
  | String c s' =>
      let c' := if upper then to_upper c else to_lower c in
      String c' (canonical_from (Ascii.eqb c' "-") s')
  end.

(** [textproto.CanonicalMIMEHeaderKey]: a key that holds a byte no header
    field name may hold is left as it is. *)
Definition CanonicalMIMEHeaderKey (s : string) : string :=
  if forallb is_token_char (list_ascii_of_string s)
  then canonical_from true s
  else s.

Fixpoint Header_append (h : Header) (key : string) (value : list byte) : Header :=
  match h with
  | [] => [(key, [value])]
  | (k, vs) :: h' =>
      if String.eqb k key then (k, vs ++ [value]) :: h'
      else (k, vs) :: Header_append h' key value
  end.

(** [Header.Add]: appends [value] to the values of the canonical key. *)
Definition Header_Add (h : Header) (key : string) (value : list byte) : Header :=
  Header_append h (CanonicalMIMEHeaderKey key) value.

(** [Header.Values]: the values of the canonical key, none when absent. *)
Fixpoint Header_lookup (h : Header) (key : string) : list (list byte) :=
  match h with
  | [] => []
  | (k, vs) :: h' => if String.eqb k key then vs else Header_lookup h' key
  end.

Definition Header_Values (h : Header) (key : string) : list (list byte) :=
  Header_lookup h (CanonicalMIMEHeaderKey key).

(** The parts of [http.Request] and [http.Response] the code uses. *)
Record Request : Type := mkRequest {
  Method : string;
  URL : string;
  Headers : Header
}.

Record Response : Type := mkResponse {
  StatusCode : Z;
  Body : Reader
}.

Definition req_Header_Add (req : Request) (key : string) (value : list byte) : Request :=
  mkRequest (Method req) (URL req) (Header_Add (Headers req) key value).

Definition StatusOK : Z := 200.

(** [err.Error()] for the errors of the model. *)
Definition Error (e : error) : string :=
  match e with
  | io_EOF => "EOF"
  | ErrInvalidUTF8 => "encoding: invalid UTF-8"
  | ErrTooLong => "bufio.Scanner: token too long"
  | ReadError d => d
  | ConnectError d => d
  end.

(** [errors.Wrap(err, message)]: an error that reads "message: err". *)
Definition Wrap (err : error) (message : string) : error :=
  ConnectError (message ++ ": " ++ Error err)%string.

(** [errors.Errorf("unexpected status code %v", code)] *)
Definition unexpected_status (code : Z) : error :=
  ConnectError ("unexpected status code " ++ NilZero.string_of_int (Z.to_int code))%string.

Section Connect.

(** What lies outside the package: whether [http.NewRequest] accepts the
    URL, and what the HTTP client answers to a request. *)
Variable NewRequest_error : string -> option error.
Variable Do : Request -> Response + error.

(** [http.NewRequest(method, url, nil)]: a request without headers. *)
Definition NewRequest (method url : string) : Request + error :=
  match NewRequest_error url with
  | Some err => inr err
  | None => inl (mkRequest method url [])
  end.

(** The request [connect] hands to [s.httpClient.Do]. *)
Definition connect_request (s : Stream) (req : Request) : Request :=
  let req := req_Header_Add req "Content-Type" (bytes "text/event-stream") in
  let req := req_Header_Add req "Cache-Control" (bytes "no-cache") in
  if negb (length (lastEventID s) =? 0)
  then req_Header_Add req "Last-Event-ID" (lastEventID s)
  else req.

Definition connect (s : Stream) : Reader + error :=
  match NewRequest "GET" (resource s) with
  | inr err => inr (Wrap err "creating http request")
  | inl req =>
      match Do (connect_request s req) with
      | inr err => inr (Wrap err "http error")
      | inl resp =>
          if negb (StatusCode resp =? StatusOK)%Z
          then inr (unexpected_status (StatusCode resp))
          else inl (Body resp)
      end
  end.

(** [New] with its call of [s.connect()]. *)
Definition New_connect (resource : string) : result (Stream * option error) :=
  New resource (connect (new_Stream resource)).

End Connect.

(** ** Notions the further properties are stated with *)

(** LF-terminated lines, one after the other. *)
Definition frame_LF (lines : list (list byte)) : list byte :=
  concat (map (fun l => l ++ [LF]) lines).

(** The number of blank lines among [lines]. *)
Definition blank_lines (lines : list (list byte)) : nat :=
  length (filter (fun l => length l =? 0) lines).

(** A line that does not start with a colon and whose first colon is its
    final byte. *)
Definition ends_in_first_colon (line : list byte) : Prop :=
  exists field, field <> [] /\ ~ In COLON field /\ line = field ++ [COLON].

(** The bytes [parse] hands to the validator: the input without the mark
    it may begin with. *)
Definition after_BOM (input : list byte) : list byte :=
  if bytes_Equal utf8BOM (firstn (length utf8BOM) input)
  then skipn (length utf8BOM) input
  else input.

(** The lines a session interprets: none when the input is too short for
    the [Peek], else those framed from the validated input. *)
Definition session_lines (r : Reader) : list (list byte) :=
  if length (content r) <? length utf8BOM then []
  else fst (Scan (UTF8Validator (mkReader (after_BOM (content r)) (failure r)))).

(** The values of the [event] fields among [fields]. *)
Definition event_values (fields : list (list byte * list byte)) : list (list byte) :=
  map snd (filter (fun f => bytes_Equal eventType (fst f)) fields).

(** The event type after [fields]: the value of the last [event] field,
    [message] when there is none or when it is empty. *)
Definition type_after (fields : list (list byte * list byte)) : list byte :=
  match last (event_values fields) [] with
  | [] => bytes "message"
  | v => v
  end.

(** The request of a stream that has no last event ID. *)
Definition plain_request (resource : string) : Request :=
  mkRequest "GET" resource
    [("Content-Type"%string, [bytes "text/event-stream"]);
     ("Cache-Control"%string, [bytes "no-cache"])].

(** A client that answers every request with status 200 and one event. *)
Definition client_200 (req : Request) : Response + error :=
  inl (mkResponse 200 clean_source).

(** A client that answers every request with status 404. *)
Definition client_404 (req : Request) : Response + error :=
  inl (mkResponse 404 clean_source).

(** * Proofs *)

(** ** Bytes *)

Lemma byte_eqb_refl (b : byte) : Byte.eqb b b = true.
Proof. now apply Byte.byte_dec_lb. Qed.

Lemma byte_eqb_neq {a b : byte} : a <> b -> Byte.eqb a b = false.
Proof.
  intros H. destruct (Byte.eqb a b) eqn:E; [|reflexivity].
  now apply Byte.byte_dec_bl in E.
Qed.

Lemma byte_eqb_true (a b : byte) : Byte.eqb a b = true -> a = b.
Proof. apply Byte.byte_dec_bl. Qed.

Lemma bytes_Equal_eq (a b : list byte) : bytes_Equal a b = true <-> a = b.
Proof.
  revert b. induction a as [|x a IH]; intros [|y b]; simpl; split;
    try congruence; try reflexivity.
  - intros H. apply andb_true_iff in H as [H1 H2].
    apply byte_eqb_true in H1. apply IH in H2. congruence.
  - intros H. inversion H; subst. rewrite byte_eqb_refl. simpl. now apply IH.
Qed.

Lemma bytes_Equal_neq (a b : list byte) : a <> b -> bytes_Equal a b = false.
Proof.
  intros H. destruct (bytes_Equal a b) eqn:E; [|reflexivity].
  now apply bytes_Equal_eq in E.
Qed.

Lemma IndexByte_split (s : list byte) (c : byte) (m : nat) :
  IndexByte s c = Some m ->
  s = firstn m s ++ c :: skipn (m + 1) s /\ ~ In c (firstn m s).
Proof.
  revert m. induction s as [|x s IH]; simpl; intros m H; [discriminate|].
  destruct (Byte.eqb x c) eqn:E.
  - inversion H; subst. apply byte_eqb_true in E. subst. simpl. auto.
  - destruct (IndexByte s c) as [i|] eqn:Ei; [|discriminate].
    inversion H; subst. destruct (IH i eq_refl) as [IH1 IH2].
    simpl. split.
    + f_equal. exact IH1.
    + intros [Hx|Hin]; [|now apply IH2].
      subst. rewrite byte_eqb_refl in E. discriminate.
Qed.

Lemma IndexByte_None (s : list byte) (c : byte) :
  IndexByte s c = None -> ~ In c s.
Proof.
  induction s as [|x s IH]; simpl; intros H; [tauto|].
  destruct (Byte.eqb x c) eqn:E; [discriminate|].
  destruct (IndexByte s c); [discriminate|].
  intros [Hx|Hin]; [|now apply IH].
  subst. rewrite byte_eqb_refl in E. discriminate.
Qed.

(** ** [process] field by field *)

Lemma process_event (value : list byte) (s : Stream) :
  process eventType value s = set_eventTypeBuf value s.
Proof. reflexivity. Qed.

Lemma process_data (value : list byte) (s : Stream) :
  process dataType value s = set_data (data s ++ value ++ [LF]) s.
Proof. unfold process. simpl. now rewrite <- app_assoc. Qed.

Lemma process_id (value : list byte) (s : Stream) :
  process idType value s = set_lastEventID value s.
Proof. reflexivity. Qed.

Lemma process_retry (value : list byte) (s : Stream) :
  process retryType value s =
  match Atoi value with
  | (n, None) => if (0 <=? n)%Z then set_reconnectionTime n s else s
  | (_, Some _) => s
  end.
Proof. unfold process. simpl. destruct (Atoi value) as [n [e|]]; reflexivity. Qed.

Lemma process_other (name value : list byte) (s : Stream) :
  name <> eventType -> name <> dataType -> name <> idType -> name <> retryType ->
  process name value s = s.
Proof.
  intros H1 H2 H3 H4. unfold process.
  rewrite !bytes_Equal_neq by congruence. reflexivity.
Qed.

Lemma process_cases (name value : list byte) (s : Stream) :
  (name = eventType /\ process name value s = set_eventTypeBuf value s) \/
  (name = dataType /\ process name value s = set_data (data s ++ value ++ [LF]) s) \/
  (name = idType /\ process name value s = set_lastEventID value s) \/
  (name = retryType /\
   (process name value s = s \/
    exists n, process name value s = set_reconnectionTime n s)) \/
  process name value s = s.
Proof.
  destruct (bytes_Equal eventType name) eqn:E1.
  { apply bytes_Equal_eq in E1. subst. left. split; [reflexivity|apply process_event]. }
  destruct (bytes_Equal dataType name) eqn:E2.
  { apply bytes_Equal_eq in E2. subst. right; left. split; [reflexivity|apply process_data]. }
  destruct (bytes_Equal idType name) eqn:E3.
  { apply bytes_Equal_eq in E3. subst. right; right; left. split; [reflexivity|apply process_id]. }
  destruct (bytes_Equal retryType name) eqn:E4.
  { apply bytes_Equal_eq in E4. subst. right; right; right; left. split; [reflexivity|].
    rewrite process_retry. destruct (Atoi value) as [n [e|]]; [now left|].
    destruct (0 <=? n)%Z; [right; now exists n|now left]. }
  right; right; right; right. unfold process. now rewrite E1, E2, E3, E4.
Qed.

Lemma process_keeps_lastEventID (name value : list byte) (s : Stream) :
  name <> idType -> lastEventID (process name value s) = lastEventID s.
Proof.
  intros Hn.
  destruct (process_cases name value s)
    as [[_ ->]|[[_ ->]|[[E _]|[[_ [->|[n ->]]]| ->]]]]; try reflexivity.
  contradiction.
Qed.

Lemma process_keeps_events (name value : list byte) (s : Stream) :
  events (process name value s) = events s.
Proof.
  destruct (process_cases name value s)
    as [[_ ->]|[[_ ->]|[[_ ->]|[[_ [->|[n ->]]]| ->]]]]; reflexivity.
Qed.

(** ** [dispatch] *)

Lemma nth_last_app (d : list byte) (a x : byte) :
  nth (length (d ++ [a]) - 1) (d ++ [a]) x = a.
Proof.
  rewrite length_app. simpl. replace (length d + 1 - 1) with (length d) by lia.
  now rewrite nth_middle.
Qed.

Lemma firstn_last_app (d : list byte) (a : byte) :
  firstn (length (d ++ [a]) - 1) (d ++ [a]) = d.
Proof.
  rewrite length_app. simpl. replace (length d + 1 - 1) with (length d) by lia.
  rewrite firstn_app, firstn_all, Nat.sub_diag. simpl. apply app_nil_r.
Qed.

Lemma dispatch_empty (s : Stream) :
  data s = [] -> dispatch s = Ok (set_eventTypeBuf [] (set_data [] s)).
Proof. intros H. unfold dispatch. now rewrite H. Qed.

Lemma dispatch_LF (s : Stream) (d : list byte) :
  data s = d ++ [LF] -> closed (events s) = false ->
  dispatch s =
  Ok (set_events (mkChan (queue (events s) ++ [mkEvent (event_type s) d]) false)
        (set_eventTypeBuf [] (set_data [] s))).
Proof.
  intros Hd Hc. unfold dispatch, event_type. rewrite Hd.
  rewrite nth_last_app, firstn_last_app. unfold LF at 2. simpl Byte.eqb. cbv iota.
  replace (length (d ++ [LF]) =? 0) with false
    by (symmetry; apply Nat.eqb_neq; rewrite length_app; simpl; lia).
  unfold send. simpl. rewrite Hc.
  destruct (length (eventTypeBuf s) =? 0); reflexivity.
Qed.

Lemma dispatch_keeps (s s' : Stream) :
  dispatch s = Ok s' ->
  lastEventID s' = lastEventID s /\ reconnectionTime s' = reconnectionTime s /\
  data s' = [] /\ eventTypeBuf s' = [] /\ closed (events s') = closed (events s).
Proof.
  unfold dispatch. destruct (length (data s) =? 0).
  - intros H. inversion H; subst. simpl. auto.
  - unfold send. simpl. destruct (closed (events s)) eqn:Hc; simpl; [discriminate|].
    intros H. inversion H; subst. simpl. auto.
Qed.

(** ** [interpret] *)

Lemma SplitN_two (s : list byte) (sep : byte) :
  SplitN s sep 2 =
  match IndexByte s sep with
  | None => [s]
  | Some m => [firstn m s; skipn (m + 1) s]
  end.
Proof. reflexivity. Qed.

(** A line that is interpreted without a panic is a blank line, a comment,
    or a field line whose name is the text before its first colon. *)
Lemma interpret_Ok_cases (line : list byte) (s s' : Stream) :
  interpret line s = Ok s' ->
  (line = [] /\ dispatch s = Ok s') \/
  s' = s \/
  (exists field value,
      s' = process field value s /\
      (line = field \/ exists v, line = field ++ COLON :: v)).
Proof.
  destruct line as [|c line']; unfold interpret; [intros H; left; auto|].
  destruct (Byte.eqb c COLON); [intros H; inversion H; auto|].
  rewrite SplitN_two.
  destruct (IndexByte (c :: line') COLON) as [m|] eqn:Em.
  - apply IndexByte_split in Em as [Em _].
    destruct (skipn (m + 1) (c :: line')) as [|v0 value'] eqn:Ev; [discriminate|].
    destruct (Byte.eqb v0 SPACE); intros H; inversion H; subst; right; right;
      eexists _, _; (split; [reflexivity|]); right; eexists; exact Em.
  - intros H. inversion H; subst. right; right.
    eexists _, _; split; [reflexivity|]. now left.
Qed.

(** C8: once set, [lastEventID] is changed by nothing but an [id] field:
    [process] with any other field name and [dispatch], emitting or not,
    leave it as it is; an [id] field sets it to its value, the empty value
    included, as does the line [id] without a colon; and a line whose
    interpretation changes it is an [id] field line. *)
Theorem lastEventID_changed_only_by_id_field (s : Stream) :
  (forall name value,
      name <> idType -> lastEventID (process name value s) = lastEventID s) /\
  (forall s', dispatch s = Ok s' -> lastEventID s' = lastEventID s) /\
  (forall value, lastEventID (process idType value s) = value) /\
  lastEventID (process idType [] s) = [] /\
  interpret idType s = Ok (set_lastEventID [] s) /\
  (forall line s',
      interpret line s = Ok s' -> lastEventID s' <> lastEventID s ->
      line = idType \/ exists v, line = idType ++ COLON :: v).
Proof.
  repeat split.
  - intros name value Hn. now apply process_keeps_lastEventID.
  - intros s' H. now apply dispatch_keeps in H.
  - intros line s' H Hne.
    apply interpret_Ok_cases in H as [[_ H]|[->|(field & value & -> & Hl)]].
    + apply dispatch_keeps in H. tauto.
    + congruence.
    + assert (field = idType) as ->.
      { destruct (list_eq_dec Byte.byte_eq_dec field idType) as [E|E]; [exact E|].
        exfalso. apply Hne. now apply process_keeps_lastEventID. }
      exact Hl.
Qed.

Lemma lastEventID_changed_only_by_id_field_witness :
  lastEventID (process dataType (bytes "y") stream_with_id) = bytes "7" /\
  lastEventID
    (set_events (mkChan [mkEvent (bytes "message") (bytes "x")] false)
       (set_eventTypeBuf [] (set_data [] stream_with_id))) = bytes "7" /\
  (bytes "id: 8" = idType \/ exists v, bytes "id: 8" = idType ++ COLON :: v).
Proof.
  destruct (lastEventID_changed_only_by_id_field stream_with_id)
    as (H1 & H2 & _ & _ & _ & H6).
  split; [|split].
  - apply (H1 dataType (bytes "y")). discriminate.
  - apply H2. reflexivity.
  - apply (H6 (bytes "id: 8") (set_lastEventID (bytes "8") stream_with_id)).
    + reflexivity.
    + discriminate.
Defined.

(** ** Joining [data] fields *)

Lemma process_all_app (f1 f2 : list (list byte * list byte)) (s : Stream) :
  process_all (f1 ++ f2) s = process_all f2 (process_all f1 s).
Proof. unfold process_all. apply fold_left_app. Qed.

Lemma process_keeps_data (name value : list byte) (s : Stream) :
  name <> dataType -> data (process name value s) = data s.
Proof.
  intros Hn.
  destruct (process_cases name value s)
    as [[_ ->]|[[E _]|[[_ ->]|[[_ [->|[n ->]]]| ->]]]]; try reflexivity.
  contradiction.
Qed.

Lemma data_values_cons (name value : list byte) (fields : list (list byte * list byte)) :
  data_values ((name, value) :: fields) =
  if bytes_Equal dataType name then value :: data_values fields else data_values fields.
Proof.
  unfold data_values. cbn [filter fst].
  destruct (bytes_Equal dataType name); reflexivity.
Qed.

(** The data buffer after a sequence of fields: every [data] value,
    followed by LF, appended in order. *)
Lemma process_all_data (fields : list (list byte * list byte)) (s : Stream) :
  data (process_all fields s) =
  data s ++ concat (map (fun v => v ++ [LF]) (data_values fields)).
Proof.
  revert s. induction fields as [|[name value] fields IH]; intros s.
  - simpl. now rewrite app_nil_r.
  - unfold process_all in *. cbn [fold_left fst snd]. rewrite IH.
    rewrite data_values_cons.
    destruct (bytes_Equal dataType name) eqn:E.
    + apply bytes_Equal_eq in E. subst. rewrite process_data.
      cbn [map concat data set_data]. now rewrite <- !app_assoc.
    + rewrite process_keeps_data; [reflexivity|].
      intros ->. vm_compute in E. discriminate.
Qed.

Lemma process_all_events (fields : list (list byte * list byte)) (s : Stream) :
  events (process_all fields s) = events s.
Proof.
  revert s. induction fields as [|[name value] fields IH]; intros s; [reflexivity|].
  unfold process_all in *. simpl. rewrite IH. apply process_keeps_events.
Qed.

Lemma concat_LF_join (vs : list (list byte)) :
  vs <> [] -> concat (map (fun v => v ++ [LF]) vs) = join_LF vs ++ [LF].
Proof.
  induction vs as [|v vs IH]; [congruence|]. intros _.
  destruct vs as [|v' vs]; [simpl; now rewrite app_nil_r|].
  change (concat (map (fun v => v ++ [LF]) (v :: v' :: vs)))
    with ((v ++ [LF]) ++ concat (map (fun v => v ++ [LF]) (v' :: vs))).
  rewrite IH by discriminate.
  change (join_LF (v :: v' :: vs)) with (v ++ LF :: join_LF (v' :: vs)).
  now rewrite <- !app_assoc.
Qed.

(** C9: the [data] field lines before a dispatch give one event whose data
    is their values joined by single LF characters, in order of appearance,
    whatever other fields come in between; the input
    "data: YHOO\ndata: +2\ndata: 10\n\n" gives exactly the event
    {message, "YHOO\n+2\n10"}. *)
Theorem data_fields_joined_by_LF :
  (forall (s : Stream) (fields : list (list byte * list byte)),
      data s = [] -> closed (events s) = false -> data_values fields <> [] ->
      exists s',
        dispatch (process_all fields s) = Ok s' /\
        queue (events s') =
        queue (events s) ++
        [mkEvent (event_type (process_all fields s)) (join_LF (data_values fields))]) /\
  (let o := parse test_Stream (from_bytes stock_quote_input) in
   returned o = Ok None /\
   queue (events (final o)) =
   [mkEvent (bytes "message")
      (bytes "YHOO" ++ [LF] ++ bytes "+2" ++ [LF] ++ bytes "10")]).
Proof.
  split.
  - intros s fields Hd Hc Hv.
    pose proof (process_all_data fields s) as Hdata.
    rewrite Hd, concat_LF_join in Hdata by exact Hv. simpl in Hdata.
    eexists. split.
    + apply dispatch_LF; [exact Hdata|]. now rewrite process_all_events.
    + simpl. now rewrite process_all_events.
  - vm_compute. split; reflexivity.
Qed.

Lemma data_fields_joined_by_LF_witness :
  exists s',
    dispatch (process_all [(dataType, bytes "a"); (idType, bytes "1"); (dataType, bytes "b")]
                test_Stream) = Ok s' /\
    queue (events s') = [mkEvent (bytes "message") (bytes "a" ++ [LF] ++ bytes "b")].
Proof.
  destruct data_fields_joined_by_LF as [H _].
  destruct (H test_Stream
              [(dataType, bytes "a"); (idType, bytes "1"); (dataType, bytes "b")]
              eq_refl eq_refl) as (s' & H1 & H2).
  - vm_compute. discriminate.
  - exists s'. split; [exact H1|]. rewrite H2. reflexivity.
Defined.

(** ** [strconv.Atoi] and the [retry] field *)

Lemma digits_value (ds : list byte) (acc n : Z) :
  digits acc ds = Some n <->
  forallb is_digit ds = true /\
  n = fold_left (fun n d => (n * 10 + (Z.of_N (Byte.to_N d) - 48))%Z) ds acc.
Proof.
  revert acc. induction ds as [|d ds IH]; intros acc; simpl.
  - split; [intros H; inversion H; auto|intros [_ ->]; reflexivity].
  - destruct (is_digit d); simpl; [apply IH|].
    split; [discriminate|intros [H _]; discriminate].
Qed.

Lemma is_digit_range (d : byte) :
  is_digit d = true -> (0 <= Z.of_N (Byte.to_N d) - 48 <= 9)%Z.
Proof.
  unfold is_digit. intros H. apply andb_true_iff in H as [H1 H2].
  apply N.leb_le in H1, H2. lia.
Qed.

Lemma digits_bound (ds : list byte) (acc n : Z) :
  digits acc ds = Some n -> (0 <= acc)%Z ->
  (acc * 10 ^ Z.of_nat (length ds) <= n < (acc + 1) * 10 ^ Z.of_nat (length ds))%Z.
Proof.
  revert acc. induction ds as [|d ds IH]; intros acc; simpl digits.
  - intros H _. inversion H; subst. simpl. lia.
  - destruct (is_digit d) eqn:Ed; [|discriminate]. intros H Hacc.
    apply is_digit_range in Ed. apply IH in H; [|lia].
    replace (Z.of_nat (length (d :: ds))) with (Z.succ (Z.of_nat (length ds)))
      by (simpl length; lia).
    rewrite Z.pow_succ_r by lia.
    assert (0 < 10 ^ Z.of_nat (length ds))%Z by (apply Z.pow_pos_nonneg; lia).
    nia.
Qed.

Lemma digits_short (ds : list byte) (n : Z) :
  digits 0 ds = Some n -> length ds < 19 -> (0 <= n < 2 ^ 63)%Z.
Proof.
  intros H Hl. apply digits_bound in H; [|lia].
  assert (10 ^ Z.of_nat (length ds) <= 10 ^ 18)%Z
    by (apply Z.pow_le_mono_r; lia).
  change (2 ^ 63)%Z with 9223372036854775808%Z.
  change (10 ^ 18)%Z with 1000000000000000000%Z in *. lia.
Qed.

Lemma digits_nonneg (ds : list byte) (n : Z) :
  digits 0 ds = Some n -> (0 <= n)%Z.
Proof.
  intros H. apply digits_bound in H; [|lia].
  assert (0 < 10 ^ Z.of_nat (length ds))%Z by (apply Z.pow_pos_nonneg; lia).
  lia.
Qed.

Lemma ParseInt_normal (s : list byte) : ParseInt s intSize = Atoi_normal s.
Proof.
  destruct s as [|c s']; [reflexivity|].
  unfold ParseInt, Atoi_normal, ParseUint, intSize.
  change (2 ^ (64 - 1))%Z with (2 ^ 63)%Z.
  set (ds := if Byte.eqb c x2b || Byte.eqb c x2d then s' else c :: s').
  destruct ds as [|d ds'] eqn:Eds; [reflexivity|].
  destruct (digits 0 (d :: ds')) as [n|] eqn:En; [|reflexivity].
  change (2 ^ 64 - 1)%Z with 18446744073709551615%Z.
  change (2 ^ 63)%Z with 9223372036854775808%Z.
  destruct (Byte.eqb c x2d);
    destruct (Z.ltb_spec 18446744073709551615 n); cbn [negb andb];
    repeat match goal with
           | |- context [(?a <? ?b)%Z] => destruct (Z.ltb_spec a b)
           | |- context [(?a <=? ?b)%Z] => destruct (Z.leb_spec a b)
           end; try reflexivity; try lia.
Qed.

Lemma Atoi_is_normal (s : list byte) : Atoi s = Atoi_normal s.
Proof.
  unfold Atoi.
  destruct ((0 <? Z.of_nat (length s)) && (Z.of_nat (length s) <? 19))%Z eqn:Efast;
    [|apply ParseInt_normal].
  apply andb_true_iff in Efast as [_ Hlen]. apply Z.ltb_lt in Hlen.
  destruct s as [|c s']; [reflexivity|].
  unfold Atoi_normal. simpl length in Hlen.
  destruct (Byte.eqb c x2d) eqn:Eminus; destruct (Byte.eqb c x2b) eqn:Eplus;
    cbn [orb andb].
  - apply byte_eqb_true in Eminus, Eplus. congruence.
  - destruct s' as [|d ds']; [reflexivity|]. cbn [length Nat.ltb Nat.leb andb].
    destruct (digits 0 (d :: ds')) as [n|] eqn:En; [|reflexivity].
    apply digits_short in En; [|simpl length in *; lia].
    destruct (Z.ltb_spec (2 ^ 63) n); [lia|reflexivity].
  - destruct s' as [|d ds']; [reflexivity|]. cbn [length Nat.ltb Nat.leb andb].
    destruct (digits 0 (d :: ds')) as [n|] eqn:En; [|reflexivity].
    apply digits_short in En; [|simpl length in *; lia].
    destruct (Z.leb_spec (2 ^ 63) n); [lia|reflexivity].
  - destruct (digits 0 (c :: s')) as [n|] eqn:En; [|reflexivity].
    apply digits_short in En; [|simpl length in *; lia].
    destruct (Z.leb_spec (2 ^ 63) n); [lia|reflexivity].
Qed.

Lemma sign_is_no_digit (c : byte) :
  Byte.eqb c x2b || Byte.eqb c x2d = true -> is_digit c = false.
Proof.
  intros H. apply orb_true_iff in H as [H|H]; apply byte_eqb_true in H; subst;
    reflexivity.
Qed.

(** [Atoi] accepts exactly the signed base-10 integers that fit [int]. *)
Lemma Atoi_accepts (value : list byte) (n : Z) :
  Atoi value = (n, None) <-> spec_signed_base10 value n.
Proof.
  rewrite Atoi_is_normal. unfold spec_fits_int. split.
  - destruct value as [|c s']; [discriminate|]. unfold Atoi_normal.
    destruct (Byte.eqb c x2b) eqn:Eplus; [|destruct (Byte.eqb c x2d) eqn:Eminus];
      cbn [orb].
    + apply byte_eqb_true in Eplus. subst c. simpl Byte.eqb.
      destruct s' as [|d ds']; [discriminate|].
      destruct (digits 0 (d :: ds')) as [m|] eqn:Em; [|discriminate].
      pose proof (digits_nonneg _ _ Em) as Hm. apply digits_value in Em as [Hd ->].
      destruct (Z.leb_spec (2 ^ 63) (fold_left (fun n d => (n * 10 + (Z.of_N (Byte.to_N d) - 48))%Z) (d :: ds') 0%Z));
        intros HH; inversion HH; subst.
      apply base10_plus; [discriminate|exact Hd|].
      unfold spec_fits_int, spec_base10_value. lia.
    + apply byte_eqb_true in Eminus. subst c.
      destruct s' as [|d ds']; [discriminate|].
      destruct (digits 0 (d :: ds')) as [m|] eqn:Em; [|discriminate].
      pose proof (digits_nonneg _ _ Em) as Hm. apply digits_value in Em as [Hd ->].
      destruct (Z.ltb_spec (2 ^ 63) (fold_left (fun n d => (n * 10 + (Z.of_N (Byte.to_N d) - 48))%Z) (d :: ds') 0%Z));
        intros HH; inversion HH; subst.
      apply base10_minus; [discriminate|exact Hd|].
      unfold spec_fits_int, spec_base10_value. lia.
    + destruct (digits 0 (c :: s')) as [m|] eqn:Em; [|discriminate].
      pose proof (digits_nonneg _ _ Em) as Hm. apply digits_value in Em as [Hd ->].
      destruct (Z.leb_spec (2 ^ 63) (fold_left (fun n d => (n * 10 + (Z.of_N (Byte.to_N d) - 48))%Z) (c :: s') 0%Z));
        intros HH; inversion HH; subst.
      apply base10_unsigned; [discriminate|exact Hd|].
      unfold spec_fits_int, spec_base10_value. lia.
  - intros H. destruct H as [ds Hne Hd Hfit|ds Hne Hd Hfit|ds Hne Hd Hfit];
      unfold spec_fits_int in Hfit.
    + destruct ds as [|c s']; [congruence|]. unfold Atoi_normal.
      assert (Byte.eqb c x2b || Byte.eqb c x2d = false) as Hs.
      { destruct (Byte.eqb c x2b || Byte.eqb c x2d) eqn:E; [|reflexivity].
        apply sign_is_no_digit in E. simpl in Hd. rewrite E in Hd. discriminate. }
      rewrite Hs. apply orb_false_iff in Hs as [_ Hs]. rewrite Hs.
      assert (digits 0 (c :: s') = Some (spec_base10_value (c :: s'))) as ->
        by (apply digits_value; auto).
      destruct (Z.leb_spec (2 ^ 63) (spec_base10_value (c :: s'))); [lia|reflexivity].
    + destruct ds as [|d ds']; [congruence|]. unfold Atoi_normal.
      change (Byte.eqb x2b x2b) with true. change (Byte.eqb x2b x2d) with false.
      cbn [orb].
      assert (digits 0 (d :: ds') = Some (spec_base10_value (d :: ds'))) as ->
        by (apply digits_value; auto).
      destruct (Z.leb_spec (2 ^ 63) (spec_base10_value (d :: ds'))); [lia|reflexivity].
    + destruct ds as [|d ds']; [congruence|]. unfold Atoi_normal.
      change (Byte.eqb x2d x2b) with false. change (Byte.eqb x2d x2d) with true.
      cbn [orb].
      assert (digits 0 (d :: ds') = Some (spec_base10_value (d :: ds'))) as ->
        by (apply digits_value; auto).
      destruct (Z.ltb_spec (2 ^ 63) (spec_base10_value (d :: ds'))); [lia|reflexivity].
Qed.

(** C10: a [retry] field sets [reconnectionTime] to the parsed value exactly
    when the value is a base-10 integer with an optional leading sign that
    fits [int] and is not negative, so "+5" and "007" set it; a negative
    or unparsable value leaves the whole stream state as it was. *)
Theorem retry_sets_reconnectionTime (s : Stream) (value : list byte) :
  (forall n, spec_signed_base10 value n -> (0 <= n)%Z ->
      process retryType value s = set_reconnectionTime n s) /\
  ((forall n, spec_signed_base10 value n -> (n < 0)%Z) ->
      process retryType value s = s) /\
  process retryType (bytes "+5") s = set_reconnectionTime 5 s /\
  process retryType (bytes "007") s = set_reconnectionTime 7 s /\
  process retryType (bytes "-5") s = s /\
  process retryType (bytes "5s") s = s.
Proof.
  split; [|split].
  - intros n Hn Hpos. apply Atoi_accepts in Hn.
    rewrite process_retry, Hn.
    destruct (Z.leb_spec 0 n); [reflexivity|lia].
  - intros Hneg. rewrite process_retry.
    destruct (Atoi value) as [m [e|]] eqn:E; [reflexivity|].
    apply Atoi_accepts in E. apply Hneg in E.
    destruct (Z.leb_spec 0 m); [lia|reflexivity].
  - repeat split; rewrite process_retry; reflexivity.
Qed.

Lemma retry_sets_reconnectionTime_witness :
  process retryType (bytes "42") test_Stream =
  set_reconnectionTime 42 test_Stream /\
  process retryType (bytes "-1") test_Stream = test_Stream.
Proof.
  split.
  - apply (proj1 (retry_sets_reconnectionTime test_Stream (bytes "42"))).
    + apply (@base10_unsigned (bytes "42")); [discriminate|reflexivity|].
      unfold spec_fits_int. vm_compute. split; [discriminate|reflexivity].
    + lia.
  - apply (proj1 (proj2 (retry_sets_reconnectionTime test_Stream (bytes "-1")))).
    intros n Hn. apply Atoi_accepts in Hn. vm_compute in Hn.
    inversion Hn. lia.
Defined.

(** ** Line framing *)

Lemma firstn_length_app (l r : list byte) : firstn (length l) (l ++ r) = l.
Proof.
  rewrite firstn_app, firstn_all, Nat.sub_diag. simpl. apply app_nil_r.
Qed.

Lemma no_terminator_cons (b : byte) (l : list byte) :
  no_terminator (b :: l) <-> (b <> CR /\ b <> LF) /\ no_terminator l.
Proof.
  unfold no_terminator. split.
  - intros H. split; [apply H; now left|]. intros x Hx. apply H. now right.
  - intros [Hb Hl] x [<-|Hx]; auto.
Qed.

Lemma no_terminator_nil : no_terminator [].
Proof. intros b []. Qed.

(** A buffer without a terminator, or with only a final CR, gives no token. *)
Lemma splitLines_from_none (line data : list byte) (i : nat) :
  no_terminator line -> splitLines_from data i line = (0, None).
Proof.
  revert i. induction line as [|b line IH]; intros i H; [reflexivity|].
  apply no_terminator_cons in H as [[H1 H2] H]. simpl.
  rewrite (byte_eqb_neq H1), (byte_eqb_neq H2). now apply IH.
Qed.

Lemma splitLines_from_final_CR (line data : list byte) (i : nat) :
  no_terminator line -> splitLines_from data i (line ++ [CR]) = (0, None).
Proof.
  revert i. induction line as [|b line IH]; intros i H; [reflexivity|].
  apply no_terminator_cons in H as [[H1 H2] H]. simpl.
  rewrite (byte_eqb_neq H1), (byte_eqb_neq H2). now apply IH.
Qed.

Lemma splitLines_from_LF (line rest data : list byte) (i : nat) :
  no_terminator line ->
  splitLines_from data i (line ++ LF :: rest) =
  (i + length line + 1, Some (firstn (i + length line) data)).
Proof.
  revert i. induction line as [|b line IH]; intros i H.
  - simpl. now rewrite !Nat.add_0_r.
  - apply no_terminator_cons in H as [[H1 H2] H]. simpl.
    rewrite (byte_eqb_neq H1), (byte_eqb_neq H2), IH by exact H.
    replace (i + S (length line)) with (S i + length line) by lia.
    reflexivity.
Qed.

Lemma splitLines_from_CRLF (line rest data : list byte) (i : nat) :
  no_terminator line ->
  splitLines_from data i (line ++ CR :: LF :: rest) =
  (i + length line + 2, Some (firstn (i + length line + 1) data)).
Proof.
  revert i. induction line as [|b line IH]; intros i H.
  - simpl. now rewrite !Nat.add_0_r.
  - apply no_terminator_cons in H as [[H1 H2] H]. simpl.
    rewrite (byte_eqb_neq H1), (byte_eqb_neq H2), IH by exact H.
    replace (i + S (length line)) with (S i + length line) by lia.
    reflexivity.
Qed.

Lemma splitLines_from_CR (line rest data : list byte) (c : byte) (i : nat) :
  no_terminator line -> c <> LF ->
  splitLines_from data i (line ++ CR :: c :: rest) =
  (i + length line + 1, Some (firstn (i + length line) data)).
Proof.
  revert i. induction line as [|b line IH]; intros i H Hc.
  - simpl. rewrite (byte_eqb_neq Hc). now rewrite !Nat.add_0_r.
  - apply no_terminator_cons in H as [[H1 H2] H]. simpl.
    rewrite (byte_eqb_neq H1), (byte_eqb_neq H2), IH by assumption.
    replace (i + S (length line)) with (S i + length line) by lia.
    reflexivity.
Qed.

Lemma framing_cases (buf : list byte) : framing buf.
Proof.
  induction buf as [|b buf IH]; [apply no_line, no_terminator_nil|].
  destruct (Byte.byte_eq_dec b LF) as [->|Hlf].
  { apply (line_LF [] buf), no_terminator_nil. }
  destruct (Byte.byte_eq_dec b CR) as [->|Hcr].
  { destruct buf as [|c rest]; [apply (pending_CR []), no_terminator_nil|].
    destruct (Byte.byte_eq_dec c LF) as [->|Hc].
    - apply (line_CRLF [] rest), no_terminator_nil.
    - now apply (line_CR [] rest), Hc; apply no_terminator_nil. }
  assert (forall l, no_terminator l -> no_terminator (b :: l)) as Hb
    by (intros l Hl; apply no_terminator_cons; auto).
  destruct IH as [line H|line H|line rest H|line rest H|line rest c H Hc].
  - apply no_line; auto.
  - apply (pending_CR (b :: line)); auto.
  - apply (line_LF (b :: line)); auto.
  - apply (line_CRLF (b :: line)); auto.
  - apply (line_CR (b :: line)); auto.
Qed.

(** [splitLines] on each shape. *)
Lemma splitLines_none (line : list byte) (atEOF : bool) :
  no_terminator line -> splitLines line atEOF = (0, None).
Proof. apply splitLines_from_none. Qed.

Lemma splitLines_final_CR (line : list byte) (atEOF : bool) :
  no_terminator line -> splitLines (line ++ [CR]) atEOF = (0, None).
Proof. apply splitLines_from_final_CR. Qed.

Lemma splitLines_LF (line rest : list byte) (atEOF : bool) :
  no_terminator line ->
  splitLines (line ++ LF :: rest) atEOF = (length line + 1, Some line).
Proof.
  intros H. unfold splitLines. rewrite splitLines_from_LF by exact H.
  simpl. now rewrite firstn_length_app.
Qed.

Lemma splitLines_CR (line rest : list byte) (c : byte) (atEOF : bool) :
  no_terminator line -> c <> LF ->
  splitLines (line ++ CR :: c :: rest) atEOF = (length line + 1, Some line).
Proof.
  intros H Hc. unfold splitLines. rewrite splitLines_from_CR by assumption.
  simpl. now rewrite firstn_length_app.
Qed.

Lemma splitLines_CRLF (line rest : list byte) (atEOF : bool) :
  no_terminator line ->
  splitLines (line ++ CR :: LF :: rest) atEOF =
  (length line + 2, Some (line ++ [CR])).
Proof.
  intros H. unfold splitLines. rewrite splitLines_from_CRLF by exact H.
  simpl. replace (length line + 1) with (length (line ++ [CR]))
    by (rewrite length_app; reflexivity).
  change (line ++ CR :: LF :: rest) with (line ++ [CR] ++ LF :: rest).
  rewrite app_assoc. now rewrite firstn_length_app.
Qed.

(** C2, where the code departs from it: when a CR is immediately followed
    by LF, [splitLines] consumes both bytes but its token runs up to and
    including the CR. The line handed on ends with CR, so the blank line of
    a CRLF stream is the one-byte line CR, which dispatches nothing: the
    input "data: x\r\n\r\n" is framed as "data: x\r" and "\r", and no
    event is emitted. *)
Theorem splitLines_CRLF_token_keeps_CR :
  (forall (line rest : list byte) (atEOF : bool),
      no_terminator line ->
      splitLines (line ++ CR :: LF :: rest) atEOF =
      (length line + 2, Some (line ++ [CR]))) /\
  fst (Scan (from_bytes crlf_input)) = [bytes "data: x" ++ [CR]; [CR]] /\
  (let o := parse test_Stream (from_bytes crlf_input) in
   returned o = Ok None /\ queue (events (final o)) = []).
Proof.
  split; [exact splitLines_CRLF|]. vm_compute. repeat split.
Qed.

Lemma splitLines_CRLF_token_keeps_CR_witness :
  splitLines (bytes "a" ++ CR :: LF :: bytes "b") false = (3, Some (bytes "a" ++ [CR])).
Proof.
  apply (proj1 splitLines_CRLF_token_keeps_CR (bytes "a") (bytes "b") false).
  intros b [<-|[]]. split; discriminate.
Defined.

(** ** Lines that end in their first colon *)

Lemma IndexByte_first (field rest : list byte) (c : byte) :
  ~ In c field -> IndexByte (field ++ c :: rest) c = Some (length field).
Proof.
  induction field as [|x field IH]; intros H; simpl.
  - now rewrite byte_eqb_refl.
  - rewrite byte_eqb_neq by (intros ->; apply H; now left).
    rewrite IH; [reflexivity|]. intros Hin. apply H. now right.
Qed.

Lemma dispatch_open (s : Stream) :
  closed (events s) = false -> exists s', dispatch s = Ok s'.
Proof.
  intros Hc. unfold dispatch. destruct (length (data s) =? 0); [eauto|].
  unfold send. simpl. rewrite Hc. simpl. eauto.
Qed.

(** Every other line is interpreted without a panic. *)
Lemma interpret_total_otherwise (line : list byte) (s : Stream) :
  closed (events s) = false ->
  (exists s', interpret line s = Ok s') \/
  (exists field, field <> [] /\ ~ In COLON field /\ line = field ++ [COLON]).
Proof.
  intros Hc. destruct line as [|c line']; unfold interpret.
  { left. now apply dispatch_open. }
  destruct (Byte.eqb c COLON) eqn:Ec; [left; eauto|].
  rewrite SplitN_two.
  destruct (IndexByte (c :: line') COLON) as [m|] eqn:Em; [|left; eauto].
  destruct (skipn (m + 1) (c :: line')) as [|v0 value'] eqn:Ev.
  - right. exists (firstn m (c :: line')).
    apply IndexByte_split in Em as Hs. destruct Hs as [Hs Hnin].
    rewrite Ev in Hs. repeat split; [|exact Hnin|exact Hs].
    destruct m as [|m]; [|discriminate].
    simpl in Em. rewrite Ec in Em. destruct (IndexByte line' COLON); discriminate.
  - left. destruct (Byte.eqb v0 SPACE); eauto.
Qed.

(** C1, where the code departs from it: a line that does not start with a
    colon and whose first colon is its final byte is split into the field
    and an empty value, and the test [value[0] == ' '] on that empty value
    panics with an index out of range; the stream "data:\n" ends the
    session that way, with no event. *)
Theorem interpret_panics_when_first_colon_is_final_byte :
  (forall (s : Stream) (field : list byte),
      field <> [] -> ~ In COLON field ->
      interpret (field ++ [COLON]) s = Panic (IndexOutOfRange 0 0)) /\
  (let o := parse test_Stream (from_bytes (bytes "data:" ++ [LF])) in
   returned o = Panic (IndexOutOfRange 0 0) /\ queue (events (final o)) = []).
Proof.
  split; [|vm_compute; split; reflexivity].
  intros s field Hne Hnin. destruct field as [|c field']; [congruence|].
  unfold interpret. cbn [app].
  rewrite byte_eqb_neq by (intros ->; apply Hnin; now left).
  rewrite SplitN_two. change (c :: field' ++ [COLON]) with ((c :: field') ++ [COLON]).
  rewrite IndexByte_first by exact Hnin.
  rewrite skipn_app, skipn_all2 by lia.
  replace (length (c :: field') + 1 - length (c :: field')) with 1 by lia.
  reflexivity.
Qed.

Lemma interpret_panics_when_first_colon_is_final_byte_witness :
  interpret (bytes "data:") test_Stream = Panic (IndexOutOfRange 0 0).
Proof.
  apply (proj1 interpret_panics_when_first_colon_is_final_byte
           test_Stream (bytes "data")).
  - discriminate.
  - intros H. repeat (destruct H as [H|H]; [discriminate|]). exact H.
Defined.

(** ** Input shorter than the byte-order mark *)

(** C4, where the code departs from it: [Peek] asks for the two bytes of
    the byte-order mark before anything is validated, so an input of one
    byte, valid or not, ends the session with [io.EOF], the error of the
    short read; no event is emitted. The invalid byte 0x80 is only
    reported as [ErrInvalidUTF8] when at least one more byte follows. *)
Theorem single_byte_input_ends_with_EOF :
  (forall (s : Stream) (b : byte),
      parse s (from_bytes [b]) = exit s (Ok (Some io_EOF))) /\
  (let o := parse test_Stream (from_bytes [x80]) in
   returned o = Ok (Some io_EOF) /\ queue (events (final o)) = []) /\
  (let o := parse test_Stream (from_bytes [x80; x80]) in
   returned o = Ok (Some ErrInvalidUTF8) /\ queue (events (final o)) = []).
Proof.
  repeat split.
Qed.

(** ** The scanner *)

Lemma scan_step (fuel : nat) (buf : list byte) (rerr : option error) :
  scan (S fuel) buf rerr =
  match splitLines (firstn MaxScanTokenSize buf) false with
  | (advance, Some token) =>
      let '(tokens, e) := scan fuel (skipn advance buf) rerr in
      (token :: tokens, e)
  | (_, None) =>
      if MaxScanTokenSize <=? length buf
      then ([], Some ErrTooLong)
      else ([], rerr)
  end.
Proof. reflexivity. Qed.

(** What a token says about the buffer it was cut from. *)
Lemma splitLines_token (buf : list byte) (atEOF : bool) (advance : nat) (token : list byte) :
  splitLines buf atEOF = (advance, Some token) ->
  exists line rest,
    no_terminator line /\
    ((buf = line ++ LF :: rest /\ advance = length line + 1 /\ token = line) \/
     (buf = line ++ CR :: LF :: rest /\ advance = length line + 2 /\
      token = line ++ [CR]) \/
     (exists c, c <> LF /\ buf = line ++ CR :: c :: rest /\
                advance = length line + 1 /\ token = line)).
Proof.
  destruct (framing_cases buf) as [line H|line H|line rest H|line rest H|line rest c H Hc].
  - rewrite splitLines_none by exact H. discriminate.
  - rewrite splitLines_final_CR by exact H. discriminate.
  - rewrite splitLines_LF by exact H. intros E. inversion E; subst.
    exists token, rest. split; [exact H|]. left. auto.
  - rewrite splitLines_CRLF by exact H. intros E. inversion E; subst.
    exists line, rest. split; [exact H|]. right; left. auto.
  - rewrite splitLines_CR by assumption. intros E. inversion E; subst.
    exists token, rest. split; [exact H|]. right; right. exists c. auto.
Qed.

Lemma splitLines_nil_token (buf : list byte) (atEOF : bool) (advance : nat) :
  splitLines buf atEOF = (advance, None) ->
  exists line, no_terminator line /\ (buf = line \/ buf = line ++ [CR]).
Proof.
  destruct (framing_cases buf) as [line H|line H|line rest H|line rest H|line rest c H Hc].
  - intros _. exists line. auto.
  - intros _. exists line. auto.
  - rewrite splitLines_LF by exact H. discriminate.
  - rewrite splitLines_CRLF by exact H. discriminate.
  - rewrite splitLines_CR by assumption. discriminate.
Qed.

Lemma splitLines_advance (buf : list byte) (atEOF : bool) (advance : nat) (token : list byte) :
  splitLines buf atEOF = (advance, Some token) -> 1 <= advance <= length buf.
Proof.
  intros H. apply splitLines_token in H
    as (line & rest & _ & [(-> & -> & _)|[(-> & -> & _)|(c & _ & -> & -> & _)]]);
    rewrite length_app; simpl; lia.
Qed.

(** A token found in a buffer is found again when more input follows. *)
Lemma splitLines_extend (buf more : list byte) (atEOF : bool) (advance : nat) (token : list byte) :
  splitLines buf atEOF = (advance, Some token) ->
  splitLines (buf ++ more) atEOF = (advance, Some token).
Proof.
  intros H. apply splitLines_token in H
    as (line & rest & Hl & [(-> & -> & ->)|[(-> & -> & ->)|(c & Hc & -> & -> & ->)]]);
    rewrite <- app_assoc; cbn [app].
  - now apply splitLines_LF.
  - now apply splitLines_CRLF.
  - now apply splitLines_CR.
Qed.

(** The fuel of [Scan] is enough: more of it changes nothing. *)
Lemma scan_fuel (f1 f2 : nat) (buf : list byte) (rerr : option error) :
  length buf < f1 -> length buf < f2 -> scan f1 buf rerr = scan f2 buf rerr.
Proof.
  revert f2 buf. induction f1 as [|f1 IH]; intros f2 buf H1 H2; [lia|].
  destruct f2 as [|f2]; [lia|]. rewrite !scan_step.
  destruct (splitLines (firstn MaxScanTokenSize buf) false) as [advance [token|]] eqn:E;
    [|reflexivity].
  apply splitLines_advance in E. rewrite length_firstn in E.
  rewrite (IH f2); [reflexivity| |]; rewrite length_skipn; lia.
Qed.

(** ** Input that ends without a terminator *)

Lemma In_firstn (n : nat) (l : list byte) (b : byte) :
  In b (firstn n l) -> In b l.
Proof.
  intros H. rewrite <- (firstn_skipn n l). apply in_or_app. now left.
Qed.

Lemma In_skipn (n : nat) (l : list byte) (b : byte) :
  In b (skipn n l) -> In b l.
Proof.
  intros H. rewrite <- (firstn_skipn n l). apply in_or_app. now right.
Qed.

Lemma no_terminator_firstn (n : nat) (l : list byte) :
  no_terminator l -> no_terminator (firstn n l).
Proof. intros H b Hb. apply H. eapply In_firstn, Hb. Qed.

Lemma no_terminator_app (l r : list byte) :
  no_terminator (l ++ r) <-> no_terminator l /\ no_terminator r.
Proof.
  unfold no_terminator. split.
  - intros H. split; intros b Hb; apply H, in_or_app; auto.
  - intros [Hl Hr] b Hb. apply in_app_or in Hb as [Hb|Hb]; auto.
Qed.

Lemma ends_with_LF_has_terminator (l : list byte) :
  ends_with_LF l -> ~ no_terminator l.
Proof.
  intros [d ->] H. destruct (H LF) as [_ F]; [|congruence].
  apply in_or_app. right. now left.
Qed.

Lemma ends_with_LF_skipn (n : nat) (l : list byte) :
  ends_with_LF l -> skipn n l = [] \/ ends_with_LF (skipn n l).
Proof.
  intros [d ->]. destruct (Nat.le_gt_cases n (length d)) as [Hn|Hn].
  - right. exists (skipn n d). rewrite skipn_app.
    replace (n - length d) with 0 by lia. reflexivity.
  - left. apply skipn_all2. rewrite length_app. simpl. lia.
Qed.

(** Bytes that follow the last LF of the input and hold no terminator
    change nothing in the lines that are framed. *)
Lemma scan_unterminated_tail (fuel : nat) (pre tail : list byte) (rerr : option error) :
  pre = [] \/ ends_with_LF pre -> no_terminator tail -> length pre < fuel ->
  fst (scan fuel (pre ++ tail) rerr) = fst (scan fuel pre rerr).
Proof.
  revert pre. induction fuel as [|fuel IH]; intros pre Hpre Htail Hfuel; [lia|].
  rewrite !scan_step. destruct Hpre as [->|Hpre].
  - cbn [app firstn]. rewrite !splitLines_none
      by (try apply no_terminator_firstn; auto using no_terminator_nil).
    destruct (MaxScanTokenSize <=? length tail);
      destruct (MaxScanTokenSize <=? length (@nil byte)); reflexivity.
  - rewrite firstn_app.
    destruct (splitLines (firstn MaxScanTokenSize pre) false)
      as [advance [token|]] eqn:E.
    + rewrite (splitLines_extend _ _ _ _ _ E).
      apply splitLines_advance in E. rewrite length_firstn in E.
      rewrite skipn_app. replace (advance - length pre) with 0 by lia.
      cbn [skipn].
      specialize (IH (skipn advance pre)).
      destruct (scan fuel (skipn advance pre ++ tail) rerr) as [t1 e1].
      destruct (scan fuel (skipn advance pre) rerr) as [t2 e2].
      cbn [fst] in *. f_equal. apply IH.
      * destruct (ends_with_LF_skipn advance _ Hpre); auto.
      * exact Htail.
      * rewrite length_skipn. lia.
    + assert (MaxScanTokenSize < length pre) as Hlong.
      { destruct (Nat.lt_ge_cases MaxScanTokenSize (length pre)) as [|Hle]; [assumption|].
        exfalso. rewrite firstn_all2 in E by exact Hle.
        apply splitLines_nil_token in E as (line & Hl & [->| ->]).
        - now apply (ends_with_LF_has_terminator _ Hpre).
        - destruct Hpre as [d Hd]. apply app_inj_tail in Hd as [_ Hd].
          discriminate. }
      replace (MaxScanTokenSize - length pre) with 0 by lia.
      cbn [firstn]. rewrite app_nil_r, E.
      replace (MaxScanTokenSize <=? length (pre ++ tail)) with true
        by (symmetry; apply Nat.leb_le; rewrite length_app; lia).
      replace (MaxScanTokenSize <=? length pre) with true
        by (symmetry; apply Nat.leb_le; lia).
      reflexivity.
Qed.

(** C7: on "data\n\ndata\ndata\n\ndata:" the session emits the events
    {message, empty data} and {message, "\n"} and nothing else, and ends
    without an error: the final "data:" is never framed, so nothing is
    flushed at the end of the stream. In general the bytes that follow the
    last LF of the input, when they hold no terminator, add no line to
    those framed before them. *)
Theorem unterminated_tail_never_framed :
  (let o := parse test_Stream (from_bytes empty_data_input) in
   returned o = Ok None /\
   queue (events (final o)) =
   [mkEvent (bytes "message") []; mkEvent (bytes "message") [LF]] /\
   data (final o) = []) /\
  (forall (pre tail : list byte) (fail : option error),
      pre = [] \/ ends_with_LF pre -> no_terminator tail ->
      fst (Scan (mkReader (pre ++ tail) fail)) = fst (Scan (mkReader pre fail))).
Proof.
  split; [vm_compute; repeat split|].
  intros pre tail fail Hpre Htail. unfold Scan. cbn [content failure].
  rewrite (scan_fuel (S (length pre)) (S (length (pre ++ tail))) pre)
    by (rewrite ?length_app; lia).
  apply scan_unterminated_tail; auto. rewrite length_app. lia.
Qed.

Lemma unterminated_tail_never_framed_witness :
  fst (Scan (mkReader ((bytes "data" ++ [LF]) ++ bytes "data:") None)) =
  fst (Scan (mkReader (bytes "data" ++ [LF]) None)).
Proof.
  apply (proj2 unterminated_tail_never_framed).
  - right. exists (bytes "data"). reflexivity.
  - intros b H. repeat (destruct H as [<-|H]; [split; discriminate|]).
    destruct H.
Defined.

(** ** What a dispatch emits *)

Lemma process_session_inv (name value : list byte) (s : Stream) :
  session_inv s -> session_inv (process name value s).
Proof.
  intros [Hd Hc]. split; [|now rewrite process_keeps_events].
  destruct (process_cases name value s)
    as [[_ ->]|[[_ ->]|[[_ ->]|[[_ [->|[n ->]]]| ->]]]]; try exact Hd.
  right. exists (data s ++ value). simpl. now rewrite app_assoc.
Qed.

Lemma interpret_session_inv (line : list byte) (s s' : Stream) :
  session_inv s -> interpret line s = Ok s' -> session_inv s'.
Proof.
  intros Hs H.
  apply interpret_Ok_cases in H as [[_ H]|[->|(field & value & -> & _)]].
  - apply dispatch_keeps in H as (_ & _ & Hd & _ & Hc). destruct Hs as [_ Hs].
    split; [now left|congruence].
  - exact Hs.
  - now apply process_session_inv.
Qed.

Lemma interpret_all_session_inv (lines : list (list byte)) (s : Stream) :
  session_inv s -> session_inv (fst (interpret_all lines s)).
Proof.
  revert s. induction lines as [|line lines IH]; intros s Hs; [exact Hs|].
  simpl. destruct (interpret line s) as [s'|p] eqn:E; [|exact Hs].
  apply IH. eapply interpret_session_inv; eauto.
Qed.

(** ** UTF-8 validation *)

(** Bytes that occur in no valid UTF-8 text include those of the
    byte-order mark the code looks for. *)
Lemma small_byte_not_in_BOM (b : byte) :
  (Byte.to_N b <= 244)%N -> ~ In b utf8BOM.
Proof.
  intros H [<-|[<-|[]]]; vm_compute in H; now apply H.
Qed.

Lemma byte_in_le (lo hi : N) (b : byte) :
  byte_in lo hi b = true -> (lo <= Byte.to_N b <= hi)%N.
Proof.
  unfold byte_in. intros H. apply andb_true_iff in H as [H1 H2].
  apply N.leb_le in H1, H2. lia.
Qed.

Lemma first_bounds (c : byte) (sz : nat) (lo hi : N) :
  first c = Some (sz, (lo, hi)) -> (Byte.to_N c <= 244 /\ hi <= 191)%N.
Proof.
  unfold first, below_RuneSelf.
  destruct (N.ltb_spec (Byte.to_N c) 128);
    [intros E; inversion E; subst; lia|].
  repeat match goal with
         | |- context [byte_in ?l ?h c] =>
             let E := fresh "E" in
             destruct (byte_in l h c) eqn:E;
             [apply byte_in_le in E; intros E'; inversion E'; subst; lia|clear E]
         end.
  discriminate.
Qed.

Lemma is_cont_le (b : byte) : is_cont b = true -> (Byte.to_N b <= 244)%N.
Proof. intros H. apply byte_in_le in H. lia. Qed.

Lemma validate_let (out : list byte) (src : list byte) (fail : option error) :
  (let '(o, e) := validate src fail in (out ++ o, e)) =
  (out ++ fst (validate src fail), snd (validate src fail)).
Proof. destruct (validate src fail); reflexivity. Qed.

Lemma validate_error_case (src : list byte) (fail : option error) :
  src <> [] ->
  (if FullRune src then ([], Some ErrInvalidUTF8)
   else match fail with
        | Some e => ([], Some e)
        | None => ([], Some ErrInvalidUTF8)
        end) = validate src fail ->
  validate_step src fail.
Proof.
  intros Hne H. destruct (FullRune src); [|destruct fail as [e|]];
    eapply step_error; eauto.
Qed.

Lemma validate_steps (src : list byte) (fail : option error) :
  validate_step src fail.
Proof.
  destruct src as [|c t]; [now apply step_end|].
  assert (c :: t <> []) as Hne by discriminate.
  cbn [validate]. destruct (below_RuneSelf c) eqn:Ec.
  { apply (step_rune (c :: t) fail [c] t); [reflexivity|discriminate| |].
    - intros b [<-|[]]. unfold below_RuneSelf in Ec. apply N.ltb_lt in Ec. lia.
    - cbn [validate]. rewrite Ec. apply (validate_let [c]). }
  destruct (DecodeRune_size (c :: t)) as [|[|[|[|[|k]]]]] eqn:Esz;
    try (apply validate_error_case; [exact Hne|];
         cbn [validate]; rewrite Ec, Esz; destruct t as [|? [|? [|? ?]]]; reflexivity).
  - (* two bytes *)
    destruct t as [|b1 t1];
      [apply validate_error_case; [exact Hne|]; cbn [validate];
       rewrite Ec, Esz; reflexivity|].
    apply (step_rune (c :: b1 :: t1) fail [c; b1] t1); [reflexivity|discriminate| |].
    + unfold DecodeRune_size in Esz.
      destruct (first c) as [[sz [lo hi]]|] eqn:Ef; [|discriminate].
      apply first_bounds in Ef as [Hc Hhi].
      destruct (sz <=? 1); [discriminate|].
      destruct (length (c :: b1 :: t1) <? sz); [discriminate|].
      destruct (byte_in lo hi b1) eqn:E1; [|discriminate].
      apply byte_in_le in E1.
      intros b [<-|[<-|[]]]; lia.
    + cbn [validate]. rewrite Ec, Esz. apply (validate_let [c; b1]).
  - (* three bytes *)
    destruct t as [|b1 [|b2 t2]];
      try (apply validate_error_case; [exact Hne|]; cbn [validate];
           rewrite Ec, Esz; reflexivity).
    apply (step_rune (c :: b1 :: b2 :: t2) fail [c; b1; b2] t2);
      [reflexivity|discriminate| |].
    + unfold DecodeRune_size in Esz.
      destruct (first c) as [[sz [lo hi]]|] eqn:Ef; [|discriminate].
      apply first_bounds in Ef as [Hc Hhi].
      destruct (sz <=? 1); [discriminate|].
      destruct (length (c :: b1 :: b2 :: t2) <? sz); [discriminate|].
      destruct (byte_in lo hi b1) eqn:E1; [|discriminate].
      apply byte_in_le in E1. cbn [negb] in Esz.
      destruct (sz <=? 2); [discriminate|].
      destruct (is_cont b2) eqn:E2; [|discriminate].
      apply is_cont_le in E2.
      intros b [<-|[<-|[<-|[]]]]; lia.
    + cbn [validate]. rewrite Ec, Esz. apply (validate_let [c; b1; b2]).
  - (* four bytes *)
    destruct t as [|b1 [|b2 [|b3 t3]]];
      try (apply validate_error_case; [exact Hne|]; cbn [validate];
           rewrite Ec, Esz; reflexivity).
    apply (step_rune (c :: b1 :: b2 :: b3 :: t3) fail [c; b1; b2; b3] t3);
      [reflexivity|discriminate| |].
    + unfold DecodeRune_size in Esz.
      destruct (first c) as [[sz [lo hi]]|] eqn:Ef; [|discriminate].
      apply first_bounds in Ef as [Hc Hhi].
      destruct (sz <=? 1); [discriminate|].
      destruct (length (c :: b1 :: b2 :: b3 :: t3) <? sz); [discriminate|].
      destruct (byte_in lo hi b1) eqn:E1; [|discriminate].
      apply byte_in_le in E1. cbn [negb] in Esz.
      destruct (sz <=? 2); [discriminate|].
      destruct (is_cont b2) eqn:E2; [|discriminate].
      apply is_cont_le in E2. cbn [negb] in Esz.
      destruct (sz <=? 3); [discriminate|].
      destruct (is_cont b3) eqn:E3; [|discriminate].
      apply is_cont_le in E3.
      intros b [<-|[<-|[<-|[<-|[]]]]]; lia.
    + cbn [validate]. rewrite Ec, Esz. apply (validate_let [c; b1; b2; b3]).
Qed.

Lemma validate_output_bytes (src : list byte) (fail : option error) (b : byte) :
  In b (fst (validate src fail)) -> (Byte.to_N b <= 244)%N.
Proof.
  remember (length src) as n eqn:Hn. revert src Hn.
  induction n as [n IH] using lt_wf_ind. intros src Hn.
  destruct (validate_steps src fail) as [_ ->|rune rest Hsrc Hne Hb ->|e _ ->];
    cbn [fst]; try (intros []).
  intros Hin. apply in_app_or in Hin as [Hin|Hin]; [now apply Hb|].
  apply (IH (length rest)) with (src := rest); [|reflexivity|exact Hin].
  subst. rewrite length_app. destruct rune; [congruence|simpl; lia].
Qed.

(** The validated reader ends without an error only when the source ended
    cleanly and every byte of it was part of a valid rune. *)
Lemma validate_clean (src : list byte) (fail : option error) :
  snd (validate src fail) = None ->
  fail = None /\ fst (validate src fail) = src.
Proof.
  remember (length src) as n eqn:Hn. revert src Hn.
  induction n as [n IH] using lt_wf_ind. intros src Hn.
  destruct (validate_steps src fail) as [-> ->|rune rest Hsrc Hne Hb ->|e _ ->];
    cbn [fst snd]; [auto|intros H|discriminate].
  apply (IH (length rest)) in H as [-> H]; [|subst; rewrite length_app;
    destruct rune; [congruence|simpl; lia]|reflexivity].
  rewrite H. auto.
Qed.

(** ** The session *)

Lemma scan_error (fuel : nat) (buf : list byte) (rerr : option error) :
  snd (scan fuel buf rerr) = rerr \/ snd (scan fuel buf rerr) = Some ErrTooLong.
Proof.
  revert buf. induction fuel as [|fuel IH]; intros buf; [now left|].
  rewrite scan_step.
  destruct (splitLines (firstn MaxScanTokenSize buf) false) as [advance [token|]].
  - specialize (IH (skipn advance buf)).
    destruct (scan fuel (skipn advance buf) rerr). exact IH.
  - destruct (MaxScanTokenSize <=? length buf); auto.
Qed.

(** Every byte of a token is a byte of the scanned input. *)
Lemma scan_token_bytes (fuel : nat) (buf : list byte) (rerr : option error)
      (line : list byte) (b : byte) :
  In line (fst (scan fuel buf rerr)) -> In b line -> In b buf.
Proof.
  revert buf. induction fuel as [|fuel IH]; intros buf; [intros []|].
  rewrite scan_step.
  destruct (splitLines (firstn MaxScanTokenSize buf) false)
    as [advance [token|]] eqn:E.
  - specialize (IH (skipn advance buf)).
    destruct (scan fuel (skipn advance buf) rerr) as [tokens e]. cbn [fst] in *.
    intros [<-|Hin] Hb.
    + apply (In_firstn MaxScanTokenSize).
      apply splitLines_token in E
        as (line & rest & _ & [(-> & _ & ->)|[(-> & _ & ->)|(c & _ & -> & _ & ->)]]).
      * apply in_or_app. now left.
      * apply in_app_or in Hb as [Hb|[<-|[]]]; apply in_or_app;
          [now left|right; now left].
      * apply in_or_app. now left.
    + eapply In_skipn, IH; eauto.
  - destruct (MaxScanTokenSize <=? length buf); intros [].
Qed.

Lemma exit_closed (s : Stream) (r : result (option error)) :
  closed (events (final (exit s r))) = true.
Proof. reflexivity. Qed.

Lemma parse_lines_closed (s : Stream) (buffered : Reader) :
  closed (events (final (parse_lines s buffered))) = true.
Proof.
  unfold parse_lines. destruct (Scan (UTF8Validator buffered)) as [lines err].
  destruct (interpret_all lines s) as [s' [p|]]; apply exit_closed.
Qed.

(** The two ways through the head of [parse]. *)
Lemma parse_cases (s : Stream) (r : Reader) :
  (length (content r) < 2 /\ parse s r = exit s (Ok (Some (read_error r)))) \/
  (2 <= length (content r) /\
   exists body,
     (content r = body \/ content r = utf8BOM ++ body) /\
     parse s r = parse_lines s (mkReader body (failure r))).
Proof.
  unfold parse, Peek, Discard. change (length utf8BOM) with 2.
  destruct (Nat.ltb_spec (length (content r)) 2) as [Hlt|Hge]; [left; auto|].
  right. split; [exact Hge|].
  destruct (bytes_Equal utf8BOM (firstn 2 (content r))) eqn:E.
  - apply bytes_Equal_eq in E. exists (skipn 2 (content r)). split; [|reflexivity].
    right. rewrite E. symmetry. apply firstn_skipn.
  - exists (content r). split; [now left|]. now destruct r.
Qed.

Lemma parse_closed (s : Stream) (r : Reader) :
  closed (events (final (parse s r))) = true.
Proof.
  destruct (parse_cases s r) as [[_ ->]|[_ (body & _ & ->)]];
    [apply exit_closed|apply parse_lines_closed].
Qed.

Lemma parse_lines_clean (s : Stream) (buffered : Reader) :
  returned (parse_lines s buffered) = Ok None ->
  failure buffered = None /\
  fst (validate (content buffered) None) = content buffered.
Proof.
  unfold parse_lines, Scan, UTF8Validator.
  destruct (validate (content buffered) (failure buffered)) as [out e] eqn:Ev.
  cbn [content failure].
  pose proof (scan_error (S (length out)) out e) as He.
  destruct (scan (S (length out)) out e) as [lines err]. cbn [snd] in He.
  destruct (interpret_all lines s) as [s' [p|]]; cbn [exit returned];
    [discriminate|].
  intros H. inversion H; subst err. destruct He as [<-|He]; [|discriminate].
  pose proof (validate_clean (content buffered) (failure buffered)) as Hc.
  rewrite Ev in Hc. destruct (Hc eq_refl) as [Hf Hout]. split; [exact Hf|].
  rewrite Hf in Ev. now rewrite Ev.
Qed.

(** ** What a session emits *)

Lemma reachable_session_inv (s : Stream) : reachable s -> session_inv s.
Proof.
  induction 1 as [resource|s s' line _ IH H].
  - split; [now left|reflexivity].
  - eapply interpret_session_inv; eauto.
Qed.

Lemma interpret_all_reachable (lines : list (list byte)) (s : Stream) :
  reachable s -> reachable (fst (interpret_all lines s)).
Proof.
  revert s. induction lines as [|line lines IH]; intros s Hs; [exact Hs|].
  simpl. destruct (interpret line s) as [s'|p] eqn:E; [|exact Hs].
  apply IH. eapply reach_step; eauto.
Qed.

(** A dispatch in a state of a session. *)
Lemma dispatch_reachable (s : Stream) :
  reachable s ->
  exists s',
    dispatch s = Ok s' /\
    ((data s = [] /\ queue (events s') = queue (events s)) \/
     (exists e, queue (events s') = queue (events s) ++ [e] /\
                data s = Data e ++ [LF])).
Proof.
  intros Hr. apply reachable_session_inv in Hr as [[Hd|[d Hd]] Hc].
  - eexists. split; [now apply dispatch_empty|]. left. auto.
  - eexists. split; [now apply (dispatch_LF s d)|]. right.
    eexists. split; reflexivity || exact Hd.
Qed.

Lemma interpret_emitted (line : list byte) (s s' : Stream) :
  reachable s -> interpret line s = Ok s' ->
  (forall e, In e (queue (events s)) -> emitted_by_dispatch e) ->
  forall e, In e (queue (events s')) -> emitted_by_dispatch e.
Proof.
  intros Hr H Hq e.
  apply interpret_Ok_cases in H as [[_ H]|[->|(field & value & -> & _)]].
  - destruct (dispatch_reachable s Hr) as (s1 & H1 & [[_ Hsame]|(e1 & Hq1 & Hd1)]);
      rewrite H in H1; inversion H1; subst s1.
    + rewrite Hsame. apply Hq.
    + rewrite Hq1. intros Hin. apply in_app_or in Hin as [Hin|[<-|[]]]; [now apply Hq|].
      exists s, s'. auto.
  - apply Hq.
  - rewrite process_keeps_events. apply Hq.
Qed.

Lemma interpret_all_emitted (lines : list (list byte)) (s : Stream) :
  reachable s ->
  (forall e, In e (queue (events s)) -> emitted_by_dispatch e) ->
  forall e, In e (queue (events (fst (interpret_all lines s)))) ->
            emitted_by_dispatch e.
Proof.
  revert s. induction lines as [|line lines IH]; intros s Hr Hq; [exact Hq|].
  simpl. destruct (interpret line s) as [s'|p] eqn:E; [|exact Hq].
  apply IH; [eapply reach_step; eauto|]. eapply interpret_emitted; eauto.
Qed.

(** The events of a session are those of the lines it interpreted. *)
Lemma parse_queue (s : Stream) (r : Reader) :
  exists lines,
    queue (events (final (parse s r))) =
    queue (events (fst (interpret_all lines s))).
Proof.
  destruct (parse_cases s r) as [[_ ->]|[_ (body & _ & ->)]].
  - now exists [].
  - unfold parse_lines.
    destruct (Scan (UTF8Validator (mkReader body (failure r)))) as [lines err].
    exists lines. destruct (interpret_all lines s) as [s' [p|]]; reflexivity.
Qed.

(** C3 as stated does not hold: the valid input "data\ndata\n\n" emits an
    event whose data is "\n". *)
Lemma event_data_can_end_with_LF :
  ~ (forall (input : list byte) (e : Event),
        snd (validate input None) = None ->
        In e (queue (events (final (parse test_Stream (from_bytes input))))) ->
        ~ ends_with_LF (Data e)).
Proof.
  intros H.
  apply (H empty_values_input (mkEvent (bytes "message") [LF])).
  - reflexivity.
  - vm_compute. now left.
  - now exists [].
Qed.

(** C3, amended: in every state a session reaches, a dispatch returns and
    either finds the data buffer empty and emits nothing, or emits exactly
    one event whose data is the data buffer without its final LF; and every
    event a session emits was sent by such a dispatch. One LF is removed:
    the data ends with LF itself when the buffer ended with two. *)
Theorem dispatch_strips_exactly_one_LF :
  (forall s : Stream,
      reachable s ->
      exists s',
        dispatch s = Ok s' /\
        ((data s = [] /\ queue (events s') = queue (events s)) \/
         (exists e, queue (events s') = queue (events s) ++ [e] /\
                    data s = Data e ++ [LF]))) /\
  (forall (resource : string) (r : Reader) (e : Event),
      In e (queue (events (final (parse (new_Stream resource) r)))) ->
      emitted_by_dispatch e).
Proof.
  split; [exact dispatch_reachable|].
  intros resource r e.
  destruct (parse_queue (new_Stream resource) r) as [lines ->].
  apply interpret_all_emitted; [apply reach_new|intros e' []].
Qed.

Lemma dispatch_strips_exactly_one_LF_witness :
  (exists s',
      dispatch (fst (interpret_all [bytes "data"; bytes "data"] test_Stream)) = Ok s' /\
      queue (events s') = [mkEvent (bytes "message") [LF]]) /\
  emitted_by_dispatch (mkEvent (bytes "message") [LF]).
Proof.
  destruct dispatch_strips_exactly_one_LF as [H1 H2]. split.
  - destruct (H1 (fst (interpret_all [bytes "data"; bytes "data"] test_Stream)))
      as (s' & H & _).
    + apply interpret_all_reachable, reach_new.
    + exists s'. split; [exact H|].
      vm_compute in H. inversion H. reflexivity.
  - apply (H2 EmptyString (from_bytes empty_values_input)).
    vm_compute. now left.
Defined.

(** ** What the caller of [New] gets to see *)

(** C5 as stated does not hold: a session that ends cleanly, one that ends
    with an encoding error and one that ends with a read error leave the
    caller of [New] with the same stream and the same nil error. *)
Lemma New_hides_how_the_session_ended :
  returned (parse (new_Stream "r") clean_source) = Ok None /\
  returned (parse (new_Stream "r") invalid_source) = Ok (Some ErrInvalidUTF8) /\
  returned (parse (new_Stream "r") failing_source) =
  Ok (Some (ReadError "connection reset")) /\
  New "r" (inl clean_source) = New "r" (inl invalid_source) /\
  New "r" (inl clean_source) = New "r" (inl failing_source).
Proof. vm_compute. repeat split. Qed.

(** C5, amended: however a session ends, [parse] closes the event channel;
    it returns nil only when the source ended cleanly and all of it, after
    a leading byte-order mark, was valid UTF-8, so an encoding error or a
    read error is returned to the caller of [parse]. [New] starts [parse]
    and drops what it returns: its caller gets a nil error and the closed
    channel, and no sign of how the session ended. *)
Theorem parse_returns_the_error_New_drops_it (resource : string) (r : Reader) :
  let o := parse (new_Stream resource) r in
  closed (events (final o)) = true /\
  (returned o = Ok None ->
   failure r = None /\
   exists body,
     (content r = body \/ content r = utf8BOM ++ body) /\
     fst (validate body None) = body) /\
  (forall x, returned o = Ok x ->
     exists st, New resource (inl r) = Ok (st, None) /\
                Events st = events (final o)).
Proof.
  cbv zeta. split; [apply parse_closed|]. split.
  - destruct (parse_cases (new_Stream resource) r)
      as [[_ ->]|[_ (body & Hb & ->)]]; [discriminate|].
    intros H. apply parse_lines_clean in H as [Hf Hv]. cbn [content failure] in *.
    split; [exact Hf|]. exists body. auto.
  - intros x Hx. unfold New. rewrite Hx. eexists. split; reflexivity.
Qed.

Lemma parse_returns_the_error_New_drops_it_witness :
  exists st, New "r" (inl invalid_source) = Ok (st, None) /\
             Events st = events (final (parse (new_Stream "r") invalid_source)).
Proof.
  apply (proj2 (proj2 (parse_returns_the_error_New_drops_it "r" invalid_source))
           (Some ErrInvalidUTF8)).
  reflexivity.
Defined.

(** ** The byte-order mark *)

Lemma SplitN_two_bytes (line piece : list byte) (sep b : byte) :
  In piece (SplitN line sep 2) -> In b piece -> In b line.
Proof.
  rewrite SplitN_two. destruct (IndexByte line sep) as [m|].
  - intros [<-|[<-|[]]]; [apply In_firstn|apply In_skipn].
  - intros [<-|[]]. auto.
Qed.

Lemma Scan_token_bytes (r : Reader) (line : list byte) (b : byte) :
  In line (fst (Scan r)) -> In b line -> In b (content r).
Proof. unfold Scan. apply scan_token_bytes. Qed.

Lemma UTF8Validator_content (r : Reader) :
  content (UTF8Validator r) = fst (validate (content r) (failure r)).
Proof.
  unfold UTF8Validator. now destruct (validate (content r) (failure r)).
Qed.

(** C6: a stream that begins with the byte-order mark [utf8BOM] is parsed
    as the bytes behind that one mark; a stream of two bytes or more that
    does not begin with it is parsed whole; no byte of the mark occurs in a
    line that is interpreted, nor in the field or the value it is split
    into; and the mark followed by "data: foo\n\n" gives exactly the event
    {message, "foo"}. *)
Theorem leading_BOM_is_discarded :
  (forall (s : Stream) (rest : list byte) (fail : option error),
      parse s (mkReader (utf8BOM ++ rest) fail) =
      parse_lines s (mkReader rest fail)) /\
  (forall (s : Stream) (input : list byte) (fail : option error),
      2 <= length input -> firstn 2 input <> utf8BOM ->
      parse s (mkReader input fail) = parse_lines s (mkReader input fail)) /\
  (forall (buffered : Reader) (line piece : list byte) (b : byte),
      In line (fst (Scan (UTF8Validator buffered))) ->
      In piece (SplitN line COLON 2) ->
      In b line \/ In b piece -> ~ In b utf8BOM) /\
  (let o := parse test_Stream (from_bytes bom_input) in
   returned o = Ok None /\
   queue (events (final o)) = [mkEvent (bytes "message") (bytes "foo")]).
Proof.
  split; [|split; [|split]].
  - intros s rest fail. reflexivity.
  - intros s input fail Hlen Hbom. unfold parse, Peek. cbn [content].
    change (length utf8BOM) with 2.
    destruct (Nat.ltb_spec (length input) 2); [lia|].
    rewrite bytes_Equal_neq by congruence. reflexivity.
  - intros buffered line piece b Hline Hpiece Hb.
    assert (In b line) as Hin
      by (destruct Hb; [assumption|eapply SplitN_two_bytes; eauto]).
    apply small_byte_not_in_BOM.
    apply (validate_output_bytes (content buffered) (failure buffered)).
    rewrite <- UTF8Validator_content. eapply Scan_token_bytes; eauto.
  - vm_compute. split; reflexivity.
Qed.

Lemma leading_BOM_is_discarded_witness :
  parse test_Stream (mkReader (bytes "data: foo" ++ [LF; LF]) None) =
  parse_lines test_Stream (mkReader (bytes "data: foo" ++ [LF; LF]) None) /\
  ~ In x66 utf8BOM.
Proof.
  destruct leading_BOM_is_discarded as (_ & H2 & H3 & _). split.
  - apply H2.
    + vm_compute. lia.
    + vm_compute. discriminate.
  - apply (H3 (from_bytes (bytes "data: foo" ++ [LF; LF]))
              (bytes "data: foo") (bytes " foo") x66).
    + vm_compute. now left.
    + vm_compute. right. now left.
    + right. vm_compute. right. now left.
Defined.

(** The mark [utf8BOM] is the byte pair 0xFE 0xFF. The three bytes that
    encode U+FEFF in UTF-8 are valid text: they stay in the stream, become
    part of the first field name, and the example then emits nothing. *)
Lemma encoded_mark_is_kept :
  fst (Scan (UTF8Validator (from_bytes encoded_mark_input))) =
  [[xef; xbb; xbf] ++ bytes "data: foo"; []] /\
  (let o := parse test_Stream (from_bytes encoded_mark_input) in
   returned o = Ok None /\ queue (events (final o)) = []).
Proof. vm_compute. repeat split. Qed.

(** * Further properties of the code *)

(** ** [splitLines] *)

(** X1: a line ended by a lone LF, or by a CR that another byte than LF
    follows, is returned without its terminator, and the advance goes just
    past that one terminator byte. *)
Theorem splitLines_lone_terminator_excluded
        (line rest : list byte) (atEOF : bool) :
  no_terminator line ->
  splitLines (line ++ LF :: rest) atEOF = (length line + 1, Some line) /\
  (forall c, c <> LF ->
     splitLines (line ++ CR :: c :: rest) atEOF = (length line + 1, Some line)).
Proof.
  intros H. split; [now apply splitLines_LF|].
  intros c Hc. now apply splitLines_CR.
Qed.

Lemma splitLines_lone_terminator_excluded_witness :
  splitLines (bytes "id: 1" ++ LF :: bytes "data") false = (6, Some (bytes "id: 1")) /\
  splitLines (bytes "id: 1" ++ CR :: x64 :: bytes "ata") false = (6, Some (bytes "id: 1")).
Proof.
  assert (no_terminator (bytes "id: 1")) as H
    by (intros b Hb; repeat (destruct Hb as [<-|Hb]; [split; discriminate|]);
        destruct Hb).
  destruct (splitLines_lone_terminator_excluded (bytes "id: 1") (bytes "data") false H)
    as [H1 _].
  destruct (splitLines_lone_terminator_excluded (bytes "id: 1") (bytes "ata") false H)
    as [_ H2].
  split; [exact H1|]. apply H2. discriminate.
Defined.

(** X2: [splitLines] returns no token, and asks for no advance, exactly
    when the buffer holds no terminator or holds only a CR as its final
    byte, whatever [atEOF] is: a CR at the end waits for the byte after
    it, and at the end of the input what follows the last terminator is
    never returned. *)
Theorem splitLines_no_token_iff (buf : list byte) (atEOF : bool) :
  splitLines buf atEOF = (0, None) <->
  exists line, no_terminator line /\ (buf = line \/ buf = line ++ [CR]).
Proof.
  split.
  - apply splitLines_nil_token.
  - intros (line & H & [->| ->]);
      [now apply splitLines_none|now apply splitLines_final_CR].
Qed.

(** X3: whenever [splitLines] returns a token, the token is the beginning
    of the buffer and holds no LF, the advance is the length of the token
    plus one, and the one byte dropped behind the token is LF or CR. *)
Theorem splitLines_token_drops_one_byte
        (buf : list byte) (atEOF : bool) (advance : nat) (token : list byte) :
  splitLines buf atEOF = (advance, Some token) ->
  advance = length token + 1 /\
  ~ In LF token /\
  exists t, (t = LF \/ t = CR) /\ buf = token ++ t :: skipn advance buf.
Proof.
  intros H. apply splitLines_token in H
    as (line & rest & Hl & [(-> & -> & ->)|[(-> & -> & ->)|(c & Hc & -> & -> & ->)]]).
  - split; [reflexivity|]. split; [intros Hin; now apply Hl in Hin|].
    exists LF. split; [now left|].
    rewrite skipn_app, skipn_all2 by lia.
    replace (length line + 1 - length line) with 1 by lia. reflexivity.
  - split; [rewrite length_app; simpl; lia|]. split.
    + intros Hin. apply in_app_or in Hin as [Hin|[E|[]]];
        [now apply Hl in Hin|discriminate].
    + exists LF. split; [now left|].
      rewrite skipn_app, skipn_all2 by lia.
      replace (length line + 2 - length line) with 2 by lia.
      cbn [skipn app]. now rewrite <- app_assoc.
  - split; [reflexivity|]. split; [intros Hin; now apply Hl in Hin|].
    exists CR. split; [now right|].
    rewrite skipn_app, skipn_all2 by lia.
    replace (length line + 1 - length line) with 1 by lia. reflexivity.
Qed.

Lemma splitLines_token_drops_one_byte_witness :
  3 = length (bytes "a" ++ [CR]) + 1 /\
  ~ In LF (bytes "a" ++ [CR]) /\
  exists t, (t = LF \/ t = CR) /\
            bytes "a" ++ CR :: LF :: bytes "b" =
            (bytes "a" ++ [CR]) ++ t :: skipn 3 (bytes "a" ++ CR :: LF :: bytes "b").
Proof.
  apply (splitLines_token_drops_one_byte
           (bytes "a" ++ CR :: LF :: bytes "b") false 3 (bytes "a" ++ [CR])).
  reflexivity.
Defined.

(** ** The scanner over [splitLines] *)

Lemma MaxScanTokenSize_pos : 0 < MaxScanTokenSize.
Proof. apply Nat.ltb_lt. vm_compute. reflexivity. Qed.

Lemma scan_line_shape (fuel : nat) (buf : list byte) (rerr : option error)
      (line : list byte) :
  In line (fst (scan fuel buf rerr)) ->
  exists l, no_terminator l /\ (line = l \/ line = l ++ [CR]).
Proof.
  revert buf. induction fuel as [|fuel IH]; intros buf; [intros []|].
  rewrite scan_step.
  destruct (splitLines (firstn MaxScanTokenSize buf) false)
    as [advance [token|]] eqn:E.
  - specialize (IH (skipn advance buf)).
    destruct (scan fuel (skipn advance buf) rerr) as [tokens e]. cbn [fst] in *.
    intros [<-|Hin]; [|now apply IH].
    apply splitLines_token in E
      as (l & rest & Hl & [(_ & _ & ->)|[(_ & _ & ->)|(c & _ & _ & _ & ->)]]);
      exists l; auto.
  - destruct (MaxScanTokenSize <=? length buf); intros [].
Qed.

Lemma Scan_line_shape (r : Reader) (line : list byte) :
  In line (fst (Scan r)) ->
  exists l, no_terminator l /\ (line = l \/ line = l ++ [CR]).
Proof. unfold Scan. apply scan_line_shape. Qed.

(** X4: every line the scanner frames, from any input, holds no LF, and
    holds a CR at most as its final byte. *)
Theorem framed_lines_hold_no_LF (r : Reader) (line : list byte) :
  In line (fst (Scan r)) ->
  ~ In LF line /\
  exists l, no_terminator l /\ (line = l \/ line = l ++ [CR]).
Proof.
  intros H. apply Scan_line_shape in H as (l & Hl & Hline).
  split; [|eauto].
  destruct Hline as [->| ->]; intros Hin.
  - now apply Hl in Hin.
  - apply in_app_or in Hin as [Hin|[E|[]]]; [now apply Hl in Hin|discriminate].
Qed.

Lemma framed_lines_hold_no_LF_witness :
  ~ In LF (bytes "data: x" ++ [CR]).
Proof.
  apply (framed_lines_hold_no_LF (from_bytes crlf_input) (bytes "data: x" ++ [CR])).
  vm_compute. now left.
Defined.

Lemma scan_frame_LF (lines : list (list byte)) (rerr : option error) (fuel : nat) :
  Forall (fun l => no_terminator l /\ length l < MaxScanTokenSize) lines ->
  length (frame_LF lines) < fuel ->
  scan fuel (frame_LF lines) rerr = (lines, rerr).
Proof.
  revert fuel. induction lines as [|l lines IH]; intros fuel Hall Hfuel;
    (destruct fuel as [|fuel]; [lia|]); rewrite scan_step.
  - unfold frame_LF. cbn [map concat]. rewrite firstn_nil.
    rewrite splitLines_none by apply no_terminator_nil.
    pose proof MaxScanTokenSize_pos as Hpos.
    destruct (Nat.leb_spec MaxScanTokenSize (length (@nil byte))) as [Hle|_];
      [cbn [length] in Hle; lia|reflexivity].
  - inversion Hall as [|? ? [Hl Hlen] Hall']; subst.
    unfold frame_LF in *. cbn [map concat] in *.
    rewrite <- app_assoc in *. cbn [app] in *.
    set (rest := concat (map (fun l0 => l0 ++ [LF]) lines)) in *.
    rewrite firstn_app, (firstn_all2 l) by lia.
    destruct (MaxScanTokenSize - length l) as [|k] eqn:Ek; [lia|].
    cbn [firstn]. rewrite splitLines_LF by exact Hl.
    rewrite skipn_app, skipn_all2 by lia.
    replace (length l + 1 - length l) with 1 by lia. cbn [skipn app].
    rewrite IH; [reflexivity|exact Hall'|].
    rewrite length_app in Hfuel. cbn [length] in Hfuel. lia.
Qed.

Lemma scan_of_LF_terminated_lines_aux (lines : list (list byte)) (rerr : option error) :
  Forall (fun l => no_terminator l /\ length l < MaxScanTokenSize) lines ->
  Scan (mkReader (frame_LF lines) rerr) = (lines, rerr).
Proof.
  intros H. unfold Scan. cbn [content failure].
  apply scan_frame_LF; [exact H|lia].
Qed.

(** X5: framing undoes LF-termination: the scanner gives back, in order,
    exactly the lines that were written one after the other, each followed
    by LF, provided that no line holds a terminator and that each is
    shorter than the scanner's buffer; it ends with the reader's error. *)
Theorem scan_of_LF_terminated_lines (lines : list (list byte)) (rerr : option error) :
  Forall (fun l => no_terminator l /\ length l < MaxScanTokenSize) lines ->
  Scan (mkReader (frame_LF lines) rerr) = (lines, rerr).
Proof.
  intros H. unfold Scan. cbn [content failure].
  apply scan_frame_LF; [exact H|].
  apply Nat.lt_succ_diag_r.
Qed.

Lemma scan_of_LF_terminated_lines_witness :
  Scan (mkReader (frame_LF [bytes "data: x"; []]) None) = ([bytes "data: x"; []], None).
Proof.
  apply scan_of_LF_terminated_lines.
  apply Forall_cons; [split|apply Forall_cons; [split|apply Forall_nil]].
  - intros b Hb. repeat (destruct Hb as [<-|Hb]; [split; discriminate|]).
    destruct Hb.
  - apply Nat.ltb_lt. vm_compute. reflexivity.
  - intros b [].
  - apply Nat.ltb_lt. vm_compute. reflexivity.
Defined.

(** ** [interpret] *)

Lemma IndexByte_absent (s : list byte) (c : byte) :
  ~ In c s -> IndexByte s c = None.
Proof.
  induction s as [|x s IH]; intros H; [reflexivity|]. simpl.
  rewrite byte_eqb_neq by (intros ->; apply H; now left).
  rewrite IH; [reflexivity|]. intros Hin. apply H. now right.
Qed.

Lemma skipn_past_separator (field value : list byte) (c : byte) :
  skipn (length field + 1) (field ++ c :: value) = value.
Proof.
  rewrite skipn_app, skipn_all2 by lia.
  replace (length field + 1 - length field) with 1 by lia. reflexivity.
Qed.

(** A field line with a value: the split and the one space. *)
Lemma interpret_field_value (s : Stream) (field value : list byte) (v0 : byte) :
  field <> [] -> ~ In COLON field ->
  interpret (field ++ COLON :: v0 :: value) s =
  Ok (process field (if Byte.eqb v0 SPACE then value else v0 :: value) s).
Proof.
  intros Hne Hnin. destruct field as [|c field']; [congruence|].
  unfold interpret. cbn [app].
  rewrite byte_eqb_neq by (intros ->; apply Hnin; now left).
  rewrite SplitN_two.
  change (c :: field' ++ COLON :: v0 :: value)
    with ((c :: field') ++ COLON :: v0 :: value).
  rewrite IndexByte_first by exact Hnin.
  rewrite firstn_length_app, skipn_past_separator.
  destruct (Byte.eqb v0 SPACE); reflexivity.
Qed.

Lemma interpret_final_colon (s : Stream) (field : list byte) :
  field <> [] -> ~ In COLON field ->
  interpret (field ++ [COLON]) s = Panic (IndexOutOfRange 0 0).
Proof.
  intros Hne Hnin. destruct field as [|c field']; [congruence|].
  unfold interpret. cbn [app].
  rewrite byte_eqb_neq by (intros ->; apply Hnin; now left).
  rewrite SplitN_two. change (c :: field' ++ [COLON]) with ((c :: field') ++ [COLON]).
  rewrite IndexByte_first by exact Hnin.
  rewrite skipn_past_separator. reflexivity.
Qed.

Lemma interpret_no_colon (s : Stream) (line : list byte) :
  line <> [] -> ~ In COLON line -> interpret line s = Ok (process line [] s).
Proof.
  intros Hne Hnin. destruct line as [|c line']; [congruence|].
  unfold interpret.
  rewrite byte_eqb_neq by (intros ->; apply Hnin; now left).
  rewrite SplitN_two, IndexByte_absent by exact Hnin. reflexivity.
Qed.

(** X6: a field line is split at its first colon only, and exactly one
    space after that colon is removed: a name without a colon, followed by
    a colon, a space and any bytes, is processed with those bytes as value;
    followed by a colon and a byte other than a space, with all that
    follows the colon as value; and alone, with the empty value. *)
Theorem interpret_splits_at_first_colon (s : Stream) (field : list byte) :
  field <> [] -> ~ In COLON field ->
  interpret field s = Ok (process field [] s) /\
  (forall v, interpret (field ++ COLON :: SPACE :: v) s = Ok (process field v s)) /\
  (forall c v, c <> SPACE ->
     interpret (field ++ COLON :: c :: v) s = Ok (process field (c :: v) s)).
Proof.
  intros Hne Hnin. split; [now apply interpret_no_colon|]. split.
  - intros v. rewrite interpret_field_value by assumption.
    now rewrite byte_eqb_refl.
  - intros c v Hc. rewrite interpret_field_value by assumption.
    now rewrite (byte_eqb_neq Hc).
Qed.

Lemma interpret_splits_at_first_colon_witness :
  interpret (bytes "data" ++ COLON :: SPACE :: bytes " a:b") test_Stream =
  Ok (process (bytes "data") (bytes " a:b") test_Stream) /\
  interpret (bytes "data" ++ COLON :: x61 :: bytes ":b") test_Stream =
  Ok (process (bytes "data") (bytes "a:b") test_Stream).
Proof.
  assert (bytes "data" <> []) as H1 by discriminate.
  assert (~ In COLON (bytes "data")) as H2
    by (intros H; repeat (destruct H as [H|H]; [discriminate|]); exact H).
  destruct (interpret_splits_at_first_colon test_Stream (bytes "data") H1 H2)
    as (_ & Hs & Hc).
  split; [apply Hs|]. apply (Hc x61 (bytes ":b")). discriminate.
Defined.

(** X7: a line that starts with a colon leaves the session as it is,
    wherever it stands among the lines interpreted. *)
Theorem comment_lines_change_nothing
        (before after : list (list byte)) (comment : list byte) (s : Stream) :
  interpret_all (before ++ (COLON :: comment) :: after) s =
  interpret_all (before ++ after) s.
Proof.
  revert s. induction before as [|line before IH]; intros s; [reflexivity|].
  cbn [app interpret_all]. destruct (interpret line s); [apply IH|reflexivity].
Qed.

Lemma interpret_panic_cases (line : list byte) (s : Stream) (p : runtime_panic) :
  closed (events s) = false ->
  (interpret line s = Panic p <->
   p = IndexOutOfRange 0 0 /\ ends_in_first_colon line).
Proof.
  intros Hc. split.
  - intros H. destruct (interpret_total_otherwise line s Hc)
      as [[s' Hs']|(field & Hne & Hnin & ->)]; [congruence|].
    rewrite interpret_final_colon in H by assumption.
    inversion H. split; [reflexivity|]. now exists field.
  - intros [-> (field & Hne & Hnin & ->)]. now apply interpret_final_colon.
Qed.

(** X8: while the channel is open, the only line that makes [interpret]
    panic is one that does not start with a colon and whose first colon is
    its final byte, and the panic is an index out of range. *)
Theorem interpret_panics_iff (line : list byte) (s : Stream) (p : runtime_panic) :
  closed (events s) = false ->
  (interpret line s = Panic p <->
   p = IndexOutOfRange 0 0 /\ ends_in_first_colon line).
Proof.
  intros Hc. split.
  - intros H. destruct (interpret_total_otherwise line s Hc)
      as [[s' Hs']|(field & Hne & Hnin & ->)]; [congruence|].
    rewrite interpret_final_colon in H by assumption.
    inversion H. split; [reflexivity|]. now exists field.
  - intros [-> (field & Hne & Hnin & ->)]. now apply interpret_final_colon.
Qed.

Lemma interpret_panics_iff_witness :
  interpret (bytes "id:") test_Stream = Panic (IndexOutOfRange 0 0) <->
  IndexOutOfRange 0 0 = IndexOutOfRange 0 0 /\ ends_in_first_colon (bytes "id:").
Proof.
  apply (interpret_panics_iff (bytes "id:") test_Stream (IndexOutOfRange 0 0)).
  reflexivity.
Defined.

(** ** The loop of [parse] *)

(** [parse], with the lines it interprets. *)
Lemma parse_unfold (s : Stream) (r : Reader) :
  parse s r =
  if length (content r) <? length utf8BOM
  then exit s (Ok (Some (read_error r)))
  else parse_lines s (mkReader (after_BOM (content r)) (failure r)).
Proof.
  unfold parse, Peek, Discard, after_BOM.
  destruct (length (content r) <? length utf8BOM); [reflexivity|].
  destruct (bytes_Equal utf8BOM (firstn (length utf8BOM) (content r)));
    [reflexivity|]. now destruct r.
Qed.

Lemma parse_interprets (s : Stream) (r : Reader) :
  exists err,
    parse s r =
    match interpret_all (session_lines r) s with
    | (s', Some p) => exit s' (Panic p)
    | (s', None) => exit s' (Ok err)
    end.
Proof.
  rewrite parse_unfold. unfold session_lines, parse_lines.
  destruct (length (content r) <? length utf8BOM); [eexists; reflexivity|].
  destruct (Scan (UTF8Validator (mkReader (after_BOM (content r)) (failure r))))
    as [lines err].
  exists err. reflexivity.
Qed.

Lemma interpret_all_app (l1 l2 : list (list byte)) (s : Stream) :
  interpret_all (l1 ++ l2) s =
  match interpret_all l1 s with
  | (s', None) => interpret_all l2 s'
  | (s', Some p) => (s', Some p)
  end.
Proof.
  revert s. induction l1 as [|line l1 IH]; intros s; [reflexivity|].
  cbn [app interpret_all]. destruct (interpret line s); [apply IH|reflexivity].
Qed.

Lemma interpret_all_panics (lines : list (list byte)) (s : Stream) (p : runtime_panic) :
  session_inv s ->
  (snd (interpret_all lines s) = Some p <->
   p = IndexOutOfRange 0 0 /\ Exists ends_in_first_colon lines).
Proof.
  revert s. induction lines as [|line lines IH]; intros s Hs.
  - cbn. split; [discriminate|]. intros [_ H]. inversion H.
  - cbn [interpret_all]. destruct (interpret line s) as [s'|p0] eqn:E.
    + rewrite IH by (eapply interpret_session_inv; eauto).
      split; intros [Hp H]; (split; [exact Hp|]).
      * now apply Exists_cons_tl.
      * inversion H as [? ? Hbad|]; [|assumption]. subst.
        assert (interpret line s = Panic (IndexOutOfRange 0 0)) as F
          by (apply interpret_panic_cases; [apply Hs|auto]).
        congruence.
    + apply interpret_panic_cases in E as [-> Hbad]; [|apply Hs]. cbn [snd].
      split.
      * intros H. inversion H. split; [reflexivity|now apply Exists_cons_hd].
      * intros [-> _]. reflexivity.
Qed.

(** X9: a session started by [New] ends in a panic exactly when one of the
    lines it interprets does not start with a colon and has its first
    colon as its final byte; the panic is the index out of range. *)
Theorem session_panics_iff (resource : string) (r : Reader) (p : runtime_panic) :
  returned (parse (new_Stream resource) r) = Panic p <->
  p = IndexOutOfRange 0 0 /\ Exists ends_in_first_colon (session_lines r).
Proof.
  destruct (parse_interprets (new_Stream resource) r) as [err ->].
  rewrite <- (interpret_all_panics (session_lines r) (new_Stream resource) p)
    by (split; [now left|reflexivity]).
  destruct (interpret_all (session_lines r) (new_Stream resource)) as [s' [p'|]];
    cbn [exit returned snd]; split; congruence.
Qed.

Lemma dispatch_queue (s s' : Stream) :
  dispatch s = Ok s' ->
  queue (events s') = queue (events s) \/
  exists e, queue (events s') = queue (events s) ++ [e].
Proof.
  unfold dispatch. destruct (length (data s) =? 0).
  - intros H. inversion H. now left.
  - unfold send. cbn [events set_data set_eventTypeBuf].
    destruct (closed (events s)); cbn [bind]; [discriminate|].
    intros H. inversion H. right. eexists. reflexivity.
Qed.

Lemma interpret_queue (line : list byte) (s s' : Stream) :
  interpret line s = Ok s' ->
  exists new,
    queue (events s') = queue (events s) ++ new /\
    length new <= blank_lines [line].
Proof.
  intros H.
  apply interpret_Ok_cases in H as [[-> H]|[->|(field & value & -> & _)]].
  - apply dispatch_queue in H as [->|[e ->]].
    + exists []. rewrite app_nil_r. split; [reflexivity|cbn; lia].
    + exists [e]. split; [reflexivity|cbn; lia].
  - exists []. rewrite app_nil_r. split; [reflexivity|cbn; lia].
  - exists []. rewrite app_nil_r, process_keeps_events. split; [reflexivity|cbn; lia].
Qed.

Lemma blank_lines_cons (line : list byte) (lines : list (list byte)) :
  blank_lines (line :: lines) = blank_lines [line] + blank_lines lines.
Proof.
  unfold blank_lines. cbn [filter]. destruct (length line =? 0); reflexivity.
Qed.

Lemma interpret_all_queue (lines : list (list byte)) (s : Stream) :
  exists new,
    queue (events (fst (interpret_all lines s))) = queue (events s) ++ new /\
    length new <= blank_lines lines.
Proof.
  revert s. induction lines as [|line lines IH]; intros s.
  - exists []. rewrite app_nil_r. split; [reflexivity|cbn; lia].
  - cbn [interpret_all]. rewrite blank_lines_cons.
    destruct (interpret line s) as [s'|p] eqn:E.
    + apply interpret_queue in E as (n1 & E1 & L1).
      destruct (IH s') as (n2 & E2 & L2).
      exists (n1 ++ n2). rewrite E2, E1, <- app_assoc, length_app.
      split; [reflexivity|lia].
    + exists []. rewrite app_nil_r. split; [reflexivity|cbn [length]; lia].
Qed.

(** X10: a session emits at most one event for each blank line it
    interprets. *)
Theorem events_bounded_by_blank_lines (resource : string) (r : Reader) :
  length (queue (events (final (parse (new_Stream resource) r)))) <=
  blank_lines (session_lines r).
Proof.
  destruct (parse_interprets (new_Stream resource) r) as [err ->].
  destruct (interpret_all_queue (session_lines r) (new_Stream resource))
    as (new & E & L).
  destruct (interpret_all (session_lines r) (new_Stream resource)) as [s' [p|]];
    cbn [fst exit final events set_events close queue] in *;
    rewrite E; cbn [new_Stream events queue app]; exact L.
Qed.

(** X11: later lines never remove or reorder what was sent before them:
    the events sent after the lines [l1] are the beginning of the events
    sent after [l1] followed by [l2]. *)
Theorem earlier_events_are_kept (l1 l2 : list (list byte)) (s : Stream) :
  exists new,
    queue (events (fst (interpret_all (l1 ++ l2) s))) =
    queue (events (fst (interpret_all l1 s))) ++ new.
Proof.
  rewrite interpret_all_app.
  destruct (interpret_all l1 s) as [s' [p|]].
  - exists []. now rewrite app_nil_r.
  - destruct (interpret_all_queue l2 s') as (new & E & _). now exists new.
Qed.

(** ** [process], component by component *)

Lemma names_differ :
  bytes_Equal eventType dataType = false /\ bytes_Equal eventType idType = false /\
  bytes_Equal eventType retryType = false /\ bytes_Equal dataType idType = false /\
  bytes_Equal dataType retryType = false /\ bytes_Equal idType retryType = false.
Proof. vm_compute. repeat split. Qed.

Lemma process_eventTypeBuf (name value : list byte) (s : Stream) :
  eventTypeBuf (process name value s) =
  if bytes_Equal eventType name then value else eventTypeBuf s.
Proof.
  destruct (bytes_Equal eventType name) eqn:E.
  - apply bytes_Equal_eq in E. subst. reflexivity.
  - destruct (process_cases name value s)
      as [[-> _]|[[_ ->]|[[_ ->]|[[_ [->|[n ->]]]| ->]]]]; try reflexivity.
    vm_compute in E. discriminate.
Qed.

Lemma process_data_buffer (name value : list byte) (s : Stream) :
  data (process name value s) =
  if bytes_Equal dataType name then data s ++ value ++ [LF] else data s.
Proof.
  destruct (bytes_Equal dataType name) eqn:E.
  - apply bytes_Equal_eq in E. subst. now rewrite process_data.
  - apply process_keeps_data. intros ->. vm_compute in E. discriminate.
Qed.

Lemma process_lastEventID (name value : list byte) (s : Stream) :
  lastEventID (process name value s) =
  if bytes_Equal idType name then value else lastEventID s.
Proof.
  destruct (bytes_Equal idType name) eqn:E.
  - apply bytes_Equal_eq in E. subst. reflexivity.
  - apply process_keeps_lastEventID. intros ->. vm_compute in E. discriminate.
Qed.

(** The reconnection time a [retry] value asks for, if any. *)
Lemma process_reconnectionTime (name value : list byte) (s : Stream) :
  reconnectionTime (process name value s) =
  if bytes_Equal retryType name
  then match Atoi value with
       | (n, None) => if (0 <=? n)%Z then n else reconnectionTime s
       | (_, Some _) => reconnectionTime s
       end
  else reconnectionTime s.
Proof.
  destruct (bytes_Equal retryType name) eqn:E.
  - apply bytes_Equal_eq in E. subst. rewrite process_retry.
    destruct (Atoi value) as [n [e|]]; [reflexivity|].
    destruct (0 <=? n)%Z; reflexivity.
  - destruct (process_cases name value s)
      as [[_ ->]|[[_ ->]|[[_ ->]|[[-> _]| ->]]]]; try reflexivity.
    vm_compute in E. discriminate.
Qed.

Lemma process_keeps_resource (name value : list byte) (s : Stream) :
  resource (process name value s) = resource s.
Proof.
  destruct (process_cases name value s)
    as [[_ ->]|[[_ ->]|[[_ ->]|[[_ [->|[n ->]]]| ->]]]]; reflexivity.
Qed.

Lemma Stream_ext (a b : Stream) :
  resource a = resource b -> events a = events b ->
  reconnectionTime a = reconnectionTime b -> data a = data b ->
  eventTypeBuf a = eventTypeBuf b -> lastEventID a = lastEventID b -> a = b.
Proof. destruct a, b. cbn. intros; subst; reflexivity. Qed.

(** X12: [process] never sends an event and never closes the channel, and
    it changes no part of the stream but the one its field name stands
    for: only [event] changes the event type buffer, only [data] the data
    buffer, only [retry] the reconnection time. Names are compared byte by
    byte, so any other name changes nothing at all. *)
Theorem process_changes_only_its_component (name value : list byte) (s : Stream) :
  events (process name value s) = events s /\
  (name <> eventType -> eventTypeBuf (process name value s) = eventTypeBuf s) /\
  (name <> dataType -> data (process name value s) = data s) /\
  (name <> retryType -> reconnectionTime (process name value s) = reconnectionTime s) /\
  (name <> eventType -> name <> dataType -> name <> idType -> name <> retryType ->
   process name value s = s).
Proof.
  split; [apply process_keeps_events|]. split; [|split; [|split]].
  - intros H. rewrite process_eventTypeBuf. now rewrite bytes_Equal_neq by congruence.
  - intros H. rewrite process_data_buffer. now rewrite bytes_Equal_neq by congruence.
  - intros H. rewrite process_reconnectionTime.
    now rewrite bytes_Equal_neq by congruence.
  - apply process_other.
Qed.

Lemma process_changes_only_its_component_witness :
  eventTypeBuf (process (bytes "Event") (bytes "x") stream_with_id) = [] /\
  data (process (bytes "id") (bytes "8") stream_with_id) = bytes "x" ++ [LF] /\
  reconnectionTime (process (bytes "data") (bytes "5") stream_with_id) = 0%Z /\
  process (bytes "Data") (bytes "x") stream_with_id = stream_with_id.
Proof.
  split; [|split; [|split]].
  - apply (proj1 (proj2 (process_changes_only_its_component
                           (bytes "Event") (bytes "x") stream_with_id))).
    discriminate.
  - apply (proj1 (proj2 (proj2 (process_changes_only_its_component
                                  (bytes "id") (bytes "8") stream_with_id)))).
    discriminate.
  - apply (proj1 (proj2 (proj2 (proj2 (process_changes_only_its_component
                                         (bytes "data") (bytes "5") stream_with_id))))).
    discriminate.
  - apply (proj2 (proj2 (proj2 (proj2 (process_changes_only_its_component
                                         (bytes "Data") (bytes "x") stream_with_id)))));
      discriminate.
Defined.

(** X13: fields of different names can be processed in either order: the
    stream that results is the same. *)
Theorem process_commutes (n1 v1 n2 v2 : list byte) (s : Stream) :
  n1 <> n2 ->
  process n1 v1 (process n2 v2 s) = process n2 v2 (process n1 v1 s).
Proof.
  intros Hn.
  assert (forall t, bytes_Equal t n1 = true -> bytes_Equal t n2 = true -> False) as Hx
    by (intros t H1 H2; apply bytes_Equal_eq in H1, H2; congruence).
  apply Stream_ext.
  - now rewrite !process_keeps_resource.
  - now rewrite !process_keeps_events.
  - rewrite !process_reconnectionTime.
    destruct (bytes_Equal retryType n1) eqn:E1;
      destruct (bytes_Equal retryType n2) eqn:E2; try reflexivity.
    exfalso. eapply Hx; eauto.
  - rewrite !process_data_buffer.
    destruct (bytes_Equal dataType n1) eqn:E1;
      destruct (bytes_Equal dataType n2) eqn:E2; try reflexivity.
    exfalso. eapply Hx; eauto.
  - rewrite !process_eventTypeBuf.
    destruct (bytes_Equal eventType n1) eqn:E1;
      destruct (bytes_Equal eventType n2) eqn:E2; try reflexivity.
    exfalso. eapply Hx; eauto.
  - rewrite !process_lastEventID.
    destruct (bytes_Equal idType n1) eqn:E1;
      destruct (bytes_Equal idType n2) eqn:E2; try reflexivity.
    exfalso. eapply Hx; eauto.
Qed.

Lemma process_commutes_witness :
  process (bytes "id") (bytes "1") (process (bytes "data") (bytes "x") test_Stream) =
  process (bytes "data") (bytes "x") (process (bytes "id") (bytes "1") test_Stream).
Proof.
  apply process_commutes. discriminate.
Defined.

Lemma process_reconnectionTime_nonneg (name value : list byte) (s : Stream) :
  (0 <= reconnectionTime s)%Z -> (0 <= reconnectionTime (process name value s))%Z.
Proof.
  intros H. rewrite process_reconnectionTime.
  destruct (bytes_Equal retryType name); [|exact H].
  destruct (Atoi value) as [n [e|]]; [exact H|].
  destruct (Z.leb_spec 0 n); assumption.
Qed.

Lemma reachable_reconnectionTime (s : Stream) :
  reachable s -> (0 <= reconnectionTime s)%Z.
Proof.
  induction 1 as [resource|s s' line _ IH H]; [cbn; lia|].
  apply interpret_Ok_cases in H as [[_ H]|[->|(field & value & -> & _)]].
  - apply dispatch_keeps in H as (_ & -> & _). exact IH.
  - exact IH.
  - now apply process_reconnectionTime_nonneg.
Qed.

(** X14: the reconnection time is never negative: not in any state a
    session reaches, and not in the state a session ends in. *)
Theorem reconnectionTime_never_negative :
  (forall s : Stream, reachable s -> (0 <= reconnectionTime s)%Z) /\
  (forall (resource : string) (r : Reader),
      (0 <= reconnectionTime (final (parse (new_Stream resource) r)))%Z).
Proof.
  split; [exact reachable_reconnectionTime|].
  intros resource r.
  destruct (parse_interprets (new_Stream resource) r) as [err ->].
  pose proof (reachable_reconnectionTime _
                (interpret_all_reachable (session_lines r) _ (reach_new resource))) as H.
  destruct (interpret_all (session_lines r) (new_Stream resource)) as [s' [p|]];
    exact H.
Qed.

Lemma reconnectionTime_never_negative_witness :
  (0 <= reconnectionTime
          (fst (interpret_all [bytes "retry: -5"; bytes "retry: 7"] test_Stream)))%Z.
Proof.
  apply (proj1 reconnectionTime_never_negative).
  apply interpret_all_reachable, reach_new.
Defined.

(** ** [dispatch] *)

(** X15: a dispatch right after a dispatch changes nothing and emits
    nothing: the first one left both buffers empty. *)
Theorem dispatch_twice (s s' : Stream) :
  dispatch s = Ok s' -> dispatch s' = Ok s'.
Proof.
  intros H. apply dispatch_keeps in H as (_ & _ & Hd & He & _).
  rewrite dispatch_empty by exact Hd. f_equal.
  destruct s'. cbn in *. subst. reflexivity.
Qed.

Lemma dispatch_twice_witness :
  dispatch (set_events (mkChan [mkEvent (bytes "message") (bytes "x")] false)
              (set_eventTypeBuf [] (set_data [] stream_with_id))) =
  Ok (set_events (mkChan [mkEvent (bytes "message") (bytes "x")] false)
        (set_eventTypeBuf [] (set_data [] stream_with_id))).
Proof.
  apply (dispatch_twice stream_with_id). reflexivity.
Defined.

Lemma event_values_cons (name value : list byte) (fields : list (list byte * list byte)) :
  event_values ((name, value) :: fields) =
  if bytes_Equal eventType name then value :: event_values fields
  else event_values fields.
Proof.
  unfold event_values. cbn [filter fst].
  destruct (bytes_Equal eventType name); reflexivity.
Qed.

Lemma process_all_eventTypeBuf (fields : list (list byte * list byte)) (s : Stream) :
  eventTypeBuf (process_all fields s) = last (event_values fields) (eventTypeBuf s).
Proof.
  revert s. induction fields as [|[name value] fields IH]; intros s; [reflexivity|].
  unfold process_all in *. cbn [fold_left fst snd]. rewrite IH.
  rewrite event_values_cons, process_eventTypeBuf.
  destruct (bytes_Equal eventType name); [|reflexivity].
  destruct (event_values fields) as [|v vs] eqn:Ev; [reflexivity|].
  change (last (value :: v :: vs) (eventTypeBuf s)) with (last (v :: vs) (eventTypeBuf s)).
  clear. revert v. induction vs as [|w vs IHv]; intros v; [reflexivity|].
  change (last (v :: w :: vs) value) with (last (w :: vs) value).
  change (last (v :: w :: vs) (eventTypeBuf s)) with (last (w :: vs) (eventTypeBuf s)).
  apply IHv.
Qed.

(** X16: the type of an event is the value of the last [event] field
    since the dispatch before it, and [message] when there was none or when
    that value is empty; its data are the [data] values joined by LF; and
    the dispatch leaves both buffers empty for the next event. *)
Theorem event_type_is_last_event_field
        (s : Stream) (fields : list (list byte * list byte)) :
  data s = [] -> eventTypeBuf s = [] -> closed (events s) = false ->
  data_values fields <> [] ->
  exists s',
    dispatch (process_all fields s) = Ok s' /\
    queue (events s') =
    queue (events s) ++ [mkEvent (type_after fields) (join_LF (data_values fields))] /\
    data s' = [] /\ eventTypeBuf s' = [].
Proof.
  intros Hd He Hc Hv.
  pose proof (process_all_data fields s) as Hdata.
  rewrite Hd, concat_LF_join in Hdata by exact Hv. cbn [app] in Hdata.
  pose proof (dispatch_LF (process_all fields s) _ Hdata) as H.
  rewrite process_all_events in H. specialize (H Hc).
  eexists. split; [exact H|]. cbn. split; [|auto].
  f_equal. f_equal. f_equal.
  unfold event_type, type_after. rewrite process_all_eventTypeBuf, He.
  destruct (last (event_values fields) []); reflexivity.
Qed.

Lemma event_type_is_last_event_field_witness :
  exists s',
    dispatch (process_all [(eventType, bytes "a"); (dataType, bytes "x");
                           (eventType, bytes "b")] test_Stream) = Ok s' /\
    queue (events s') = [mkEvent (bytes "b") (bytes "x")] /\
    data s' = [] /\ eventTypeBuf s' = [].
Proof.
  apply (event_type_is_last_event_field test_Stream
           [(eventType, bytes "a"); (dataType, bytes "x"); (eventType, bytes "b")]);
    try reflexivity.
  vm_compute. discriminate.
Defined.

(** ** [connect] and [New] *)

Lemma connect_request_headers (s : Stream) (method url : string) :
  let req := connect_request s (mkRequest method url []) in
  Method req = method /\ URL req = url /\
  Header_Values (Headers req) "Content-Type" = [bytes "text/event-stream"] /\
  Header_Values (Headers req) "Cache-Control" = [bytes "no-cache"] /\
  Header_Values (Headers req) "Last-Event-ID" =
  (if length (lastEventID s) =? 0 then [] else [lastEventID s]).
Proof.
  unfold connect_request. destruct (length (lastEventID s) =? 0);
    cbn [negb]; repeat split.
Qed.

(** X17: [connect] returns a body only when the client answered with
    status 200, and it is the body of that answer. The request it was the
    answer to is a GET for the resource with the headers Content-Type:
    text/event-stream and Cache-Control: no-cache, and it carries
    Last-Event-ID, with the last event ID as its one value, exactly when
    that buffer is not empty. *)
Theorem connect_returns_body_of_200
        (NewRequest_error : string -> option error)
        (Do : Request -> Response + error) (s : Stream) (body : Reader) :
  connect NewRequest_error Do s = inl body ->
  exists req resp,
    Do req = inl resp /\ StatusCode resp = 200%Z /\ Body resp = body /\
    Method req = "GET"%string /\ URL req = resource s /\
    Header_Values (Headers req) "Content-Type" = [bytes "text/event-stream"] /\
    Header_Values (Headers req) "Cache-Control" = [bytes "no-cache"] /\
    Header_Values (Headers req) "Last-Event-ID" =
    (if length (lastEventID s) =? 0 then [] else [lastEventID s]).
Proof.
  unfold connect, NewRequest.
  destruct (NewRequest_error (resource s)); [discriminate|].
  destruct (Do (connect_request s (mkRequest "GET" (resource s) [])))
    as [resp|e] eqn:E; [|discriminate].
  destruct (Z.eqb_spec (StatusCode resp) StatusOK) as [Hs|Hs]; cbn [negb];
    [|discriminate].
  intros H. inversion H; subst body.
  exists (connect_request s (mkRequest "GET" (resource s) [])), resp.
  split; [exact E|]. split; [exact Hs|]. split; [reflexivity|].
  apply connect_request_headers.
Qed.

Lemma connect_returns_body_of_200_witness :
  exists req resp,
    client_200 req = inl resp /\ StatusCode resp = 200%Z /\ Body resp = clean_source /\
    Method req = "GET"%string /\ URL req = resource stream_with_id /\
    Header_Values (Headers req) "Content-Type" = [bytes "text/event-stream"] /\
    Header_Values (Headers req) "Cache-Control" = [bytes "no-cache"] /\
    Header_Values (Headers req) "Last-Event-ID" = [bytes "7"].
Proof.
  apply (connect_returns_body_of_200 (fun _ => None) client_200 stream_with_id).
  reflexivity.
Defined.

Lemma connect_new_Stream
      (NewRequest_error : string -> option error)
      (Do : Request -> Response + error) (url : string) :
  NewRequest_error url = None ->
  connect NewRequest_error Do (new_Stream url) =
  match Do (plain_request url) with
  | inr err => inr (Wrap err "http error")
  | inl resp =>
      if negb (StatusCode resp =? StatusOK)%Z
      then inr (unexpected_status (StatusCode resp))
      else inl (Body resp)
  end.
Proof.
  intros H. unfold connect, NewRequest. cbn [resource new_Stream]. rewrite H.
  reflexivity.
Qed.

(** X18: [New] asks for the resource with a request that never carries
    Last-Event-ID. When the answer has another status than 200 it returns
    an error naming that status and the stream as it was built: [parse] is
    not run, so the event channel holds nothing and is never closed. When
    the status is 200 the session is the one over the body of the answer. *)
Theorem New_connects_without_last_event_id
        (NewRequest_error : string -> option error)
        (Do : Request -> Response + error) (resource : string) (resp : Response) :
  NewRequest_error resource = None ->
  Do (plain_request resource) = inl resp ->
  (StatusCode resp <> 200%Z ->
   New_connect NewRequest_error Do resource =
   Ok (new_Stream resource, Some (unexpected_status (StatusCode resp))) /\
   Events (new_Stream resource) = mkChan [] false) /\
  (StatusCode resp = 200%Z ->
   New_connect NewRequest_error Do resource = New resource (inl (Body resp))).
Proof.
  intros Hurl Hdo. unfold New_connect.
  rewrite connect_new_Stream, Hdo by exact Hurl.
  destruct (Z.eqb_spec (StatusCode resp) StatusOK) as [Hs|Hs]; cbn [negb]; split;
    intros H; try contradiction; try reflexivity.
  split; reflexivity.
Qed.

Lemma New_connects_without_last_event_id_witness :
  New_connect (fun _ => None) client_404 "r" =
  Ok (new_Stream "r", Some (ConnectError "unexpected status code 404")) /\
  New_connect (fun _ => None) client_200 "r" = New "r" (inl clean_source).
Proof.
  split.
  - apply (proj1 (New_connects_without_last_event_id
                    (fun _ => None) client_404 "r" (mkResponse 404 clean_source)
                    eq_refl eq_refl)).
    discriminate.
  - apply (proj2 (New_connects_without_last_event_id
                    (fun _ => None) client_200 "r" (mkResponse 200 clean_source)
                    eq_refl eq_refl)).
    reflexivity.
Defined.

(** ** A stream of LF-terminated ASCII lines, end to end *)

Lemma validate_ascii (src : list byte) (fail : option error) :
  Forall (fun b => below_RuneSelf b = true) src -> validate src fail = (src, fail).
Proof.
  induction 1 as [|b src Hb _ IH]; [reflexivity|].
  cbn [validate]. now rewrite Hb, IH.
Qed.

Lemma frame_LF_ascii (lines : list (list byte)) :
  Forall (Forall (fun b => below_RuneSelf b = true)) lines ->
  Forall (fun b => below_RuneSelf b = true) (frame_LF lines).
Proof.
  induction 1 as [|l lines Hl _ IH]; [constructor|].
  unfold frame_LF in *. cbn [map concat].
  apply Forall_app. split; [|exact IH].
  apply Forall_app. split; [exact Hl|]. now constructor.
Qed.

Lemma after_BOM_ascii (input : list byte) :
  Forall (fun b => below_RuneSelf b = true) input -> after_BOM input = input.
Proof.
  intros H. unfold after_BOM. destruct H as [|b input Hb _]; [reflexivity|].
  cbn [utf8BOM length firstn bytes_Equal].
  destruct (Byte.eqb xfe b) eqn:E; [|reflexivity].
  apply byte_eqb_true in E. subst b. discriminate.
Qed.

(** X19: a source of two bytes or more made of ASCII lines, each followed
    by LF, each free of terminators and shorter than the scanner's
    buffer, is interpreted line by line, in order; and unless one of the
    lines ends in its first colon, [parse] returns what the source ended
    with: nil at a clean end, the read error otherwise. *)
Theorem parse_of_LF_terminated_ascii_lines
        (resource : string) (lines : list (list byte)) (fail : option error) :
  Forall (fun l => no_terminator l /\ length l < MaxScanTokenSize) lines ->
  Forall (Forall (fun b => below_RuneSelf b = true)) lines ->
  2 <= length (frame_LF lines) ->
  session_lines (mkReader (frame_LF lines) fail) = lines /\
  (~ Exists ends_in_first_colon lines ->
   parse (new_Stream resource) (mkReader (frame_LF lines) fail) =
   exit (fst (interpret_all lines (new_Stream resource))) (Ok fail)).
Proof.
  intros Hlines Hascii Hlen.
  pose proof (frame_LF_ascii lines Hascii) as Hframe.
  assert ((length (frame_LF lines) <? length utf8BOM) = false) as Hshort
    by (apply Nat.ltb_ge; exact Hlen).
  assert (Scan (UTF8Validator (mkReader (after_BOM (frame_LF lines)) fail)) =
          (lines, fail)) as Hscan.
  { rewrite after_BOM_ascii by exact Hframe.
    unfold UTF8Validator. cbn [content failure].
    rewrite validate_ascii by exact Hframe.
    now apply scan_of_LF_terminated_lines_aux. }
  split.
  - unfold session_lines. cbn [content failure]. now rewrite Hshort, Hscan.
  - intros Hgood. rewrite parse_unfold. cbn [content failure]. rewrite Hshort.
    unfold parse_lines. rewrite Hscan.
    destruct (interpret_all lines (new_Stream resource)) as [s' [p|]] eqn:E;
      [|reflexivity].
    exfalso. apply Hgood.
    apply (interpret_all_panics lines (new_Stream resource) p);
      [split; [now left|reflexivity]|now rewrite E].
Qed.

Lemma parse_of_LF_terminated_ascii_lines_witness :
  session_lines (mkReader (frame_LF [bytes "data: x"; []]) None) =
  [bytes "data: x"; []] /\
  parse (new_Stream "r") (mkReader (frame_LF [bytes "data: x"; []]) None) =
  exit (fst (interpret_all [bytes "data: x"; []] (new_Stream "r"))) (Ok None).
Proof.
  assert (Forall (fun l => no_terminator l /\ length l < MaxScanTokenSize)
            [bytes "data: x"; []]) as H1.
  { apply Forall_cons; [split|apply Forall_cons; [split|apply Forall_nil]].
    - intros b Hb. repeat (destruct Hb as [<-|Hb]; [split; discriminate|]).
      destruct Hb.
    - apply Nat.ltb_lt. vm_compute. reflexivity.
    - intros b [].
    - apply Nat.ltb_lt. vm_compute. reflexivity. }
  assert (Forall (Forall (fun b => below_RuneSelf b = true)) [bytes "data: x"; []])
    as H2 by (repeat constructor).
  assert (2 <= length (frame_LF [bytes "data: x"; []])) as H3
    by (vm_compute; lia).
  destruct (parse_of_LF_terminated_ascii_lines
              "r" [bytes "data: x"; []] None H1 H2 H3) as [Hs Hp].
  split; [exact Hs|]. apply Hp.
  intros H. inversion H as [? ? (f & _ & _ & E)|? ? H'].
  - apply (f_equal (fun l => last l x00)) in E. rewrite last_last in E.
    discriminate.
  - inversion H' as [? ? (f & _ & _ & E)|? ? H'']; [|inversion H''].
    now apply app_cons_not_nil in E.
Defined.
